(** * Friends ranking: connected components, circles of friends, filters and
      iterators (lib.js)

    A shallow embedding of [lib.js] and the properties of its graph
    levelling pipeline and of the iterator built on top of it. *)

From Stdlib Require Import String Ascii ZArith NArith Lia Bool Arith.
From Stdlib Require Import List Permutation Sorted.
Import ListNotations.

Open Scope string_scope.
Open Scope list_scope.
Open Scope Z_scope.

(** ** Data model *)

(** A person record as the library receives it.  JavaScript compares objects
    by identity ([Array.prototype.includes], [Set]); [ref] is that identity
    (the address of the object), the other fields are its properties. *)
Record Person := mkPerson {
  ref : nat;
  name : string;
  gender : string;
  best : bool;
  friends : list string
}.

Definition MALE : string := "male".
Definition FEMALE : string := "female".

(** [function LevelConstructor(friend, level)] *)
Record LeveledPerson := LevelConstructor {
  friend : Person;
  level : Z
}.

(** [x === y] on two objects. *)
Definition same_obj (x y : Person) : bool := Nat.eqb (ref x) (ref y).

(** [arr.includes(x)] for an array of objects. *)
Definition includes (arr : list Person) (x : Person) : bool :=
  existsb (same_obj x) arr.

(** [arr.includes(s)] for an array of strings. *)
Definition includes_str (arr : list string) (s : string) : bool :=
  existsb (String.eqb s) arr.

(** The loops of the library are run with a fuel; [None] is a run that did not
    finish within it.  The theorems below show that the fuel each entry point
    passes is always enough. *)
Definition bind {A B} (m : option A) (k : A -> option B) : option B :=
  match m with
  | Some a => k a
  | None => None
  end.

Notation "x <- m ;; k" := (bind m (fun x => k))
  (at level 61, m at next level, right associativity).

(** ** Graph Component Finder *)

(** The body of the [while (queue.length > 0)] loop of [breadthSearch]:
    [graph.filter(x => node.friends.includes(x.name))
          .filter(x => !visited.includes(x))]. *)
Definition nextNodes (graph visited : list Person) (node : Person) : list Person :=
  filter (fun x => negb (includes visited x))
    (filter (fun x => includes_str (friends node) (name x)) graph).

Fixpoint breadthSearch_loop (fuel : nat) (graph visited queue : list Person)
  : option (list Person) :=
  match queue with
  | [] => Some visited
  | node :: queue' =>
      match fuel with
      | O => None
      | S fuel' =>
          let next := nextNodes graph visited node in
          breadthSearch_loop fuel' graph (visited ++ next) (queue' ++ next)
      end
  end.

Definition breadthSearch (startNode : Person) (graph : list Person)
  : option (list Person) :=
  breadthSearch_loop (S (length graph)) graph [startNode] [startNode].

(** The [while (infinityCircle)] loop of [findConnectedComponents]; [visited]
    is the array of names, [components] the array of arrays built so far. *)
Fixpoint findConnectedComponents_loop (fuel : nat) (graph : list Person)
  (visited : list string) (components : list (list Person))
  : option (list (list Person)) :=
  match find (fun vertex => negb (includes_str visited (name vertex))) graph with
  | None => Some components
  | Some node =>
      match fuel with
      | O => None
      | S fuel' =>
          search <- breadthSearch node graph ;;
          findConnectedComponents_loop fuel' graph
            (visited ++ map name search) (components ++ [search])
      end
  end.

Definition findConnectedComponents (graph : list Person)
  : option (list (list Person)) :=
  findConnectedComponents_loop (length graph) graph [] [].

(** ** Level Assigner *)

(** The values held by [setOfAllFriends]: the result of [friends.find(...)]
    is a person of the component or [undefined] ([None]). *)
Definition same_value (x y : option Person) : bool :=
  match x, y with
  | None, None => true
  | Some a, Some b => same_obj a b
  | _, _ => false
  end.

(** [Set.prototype.add]: a [Set] keeps the order of first insertion. *)
Definition set_add (s : list (option Person)) (x : option Person)
  : list (option Person) :=
  if existsb (same_value x) s then s else s ++ [x].

(** [.filter(x => x)] on the values of the set. *)
Definition truthy (l : list (option Person)) : list Person :=
  flat_map (fun x => match x with Some p => [p] | None => [] end) l.

(** The two nested [for ... of] loops of [setLevelToFriend].  [people] is the
    source's parameter [friends] (the component). *)
Definition setOfAllFriends (nodes : list LeveledPerson) (people : list Person)
  : list (option Person) :=
  fold_left
    (fun s graphNode =>
       fold_left
         (fun s' friendOfFriend =>
            set_add s' (find (fun x => String.eqb (name x) friendOfFriend) people))
         (friends (friend graphNode)) s)
    nodes [].

Definition allFriends (nodes : list LeveledPerson) (people : list Person)
  : list Person :=
  filter (fun x => negb (includes (map friend nodes) x))
    (truthy (setOfAllFriends nodes people)).

Fixpoint setLevelToFriend (fuel : nat) (nodes : list LeveledPerson)
  (people : list Person) (currentLevel maxLevel : Z)
  : option (list LeveledPerson) :=
  if (currentLevel >? maxLevel) || (length people =? length nodes)%nat
  then Some nodes
  else
    match fuel with
    | O => None
    | S fuel' =>
        let added :=
          map (fun x => LevelConstructor x currentLevel) (allFriends nodes people) in
        setLevelToFriend fuel' (nodes ++ added) people (currentLevel + 1) maxLevel
    end.

(** The depth bound [maxLevel] is an integer.  The third parameter of the
    source is overwritten before it is read. *)
Definition getFriendsLevels (people : list Person) (maxLevel : Z)
  (_ : list LeveledPerson) : option (list LeveledPerson) :=
  let nodes :=
    map (fun bestFriend => LevelConstructor bestFriend 1)
      (filter (fun x => best x) people) in
  if (maxLevel <=? 0) || (length nodes <? 1)%nat
  then Some []
  else setLevelToFriend (Z.to_nat maxLevel) nodes people 2 maxLevel.

(** ** Ranker *)

(** The object [levels] of [getComponentsOfFriendsWithLevel]: its keys are the
    levels, positive integers, and [Object.values] lists the values of such
    keys in ascending order of the key, whatever the order of insertion. *)
Definition Levels : Type := list (Z * list LeveledPerson).

(** [if (!levels[level]) levels[level] = []; levels[level].push(friend)] *)
Fixpoint levels_push (levels : Levels) (x : LeveledPerson) : Levels :=
  match levels with
  | [] => [(level x, [x])]
  | (k, bucket) :: rest =>
      if level x =? k then (k, bucket ++ [x]) :: rest
      else if level x <? k then (level x, [x]) :: (k, bucket) :: rest
      else (k, bucket) :: levels_push rest x
  end.

(** [graphComponents.reduce((levels, currentComponent) => ..., {})] *)
Fixpoint componentsWithLevels (graphComponents : list (list Person))
  (maxLevel : Z) (levels : Levels) : option Levels :=
  match graphComponents with
  | [] => Some levels
  | currentComponent :: rest =>
      newFriendsWithLevels <- getFriendsLevels currentComponent maxLevel [] ;;
      componentsWithLevels rest maxLevel
        (fold_left levels_push newFriendsWithLevels levels)
  end.

Definition object_values (levels : Levels) : list (list LeveledPerson) :=
  map snd levels.

Section Ranker.

(** [String.prototype.localeCompare]: negative, zero or positive. *)
Variable localeCompare : string -> string -> Z.

(** [(x, y) => x.friend.name.localeCompare(y.friend.name)] *)
Definition compareFn (x y : LeveledPerson) : Z :=
  localeCompare (name (friend x)) (name (friend y)).

(** [Array.prototype.sort] is stable, and every stable sort returns the same
    array for a consistent comparator: insertion sort stands for it. *)
Fixpoint sort_insert (x : LeveledPerson) (l : list LeveledPerson)
  : list LeveledPerson :=
  match l with
  | [] => [x]
  | y :: l' => if compareFn x y <=? 0 then x :: y :: l' else y :: sort_insert x l'
  end.

Fixpoint sort (l : list LeveledPerson) : list LeveledPerson :=
  match l with
  | [] => []
  | x :: l' => sort_insert x (sort l')
  end.

(** The ranked entries before the last [.map(x => x.friend)]. *)
Definition rankedLevels (people : list Person) (maxLevel : Z)
  : option (list LeveledPerson) :=
  graphComponents <- findConnectedComponents people ;;
  levels <- componentsWithLevels graphComponents maxLevel [] ;;
  Some (concat (map sort (object_values levels))).

Definition getComponentsOfFriendsWithLevel (people : list Person) (maxLevel : Z)
  : option (list Person) :=
  ranked <- rankedLevels people maxLevel ;;
  Some (map friend ranked).

End Ranker.

(** ** Filter *)

(** A [Filter] instance; [filterFunction] is [undefined] on the base filter. *)
Record Filter := mkFilter {
  filterFunction : option (Person -> bool)
}.

Definition newFilter : Filter := {| filterFunction := None |}.

Definition MaleFilter : Filter :=
  {| filterFunction := Some (fun person => String.eqb (gender person) MALE) |}.

Definition FemaleFilter : Filter :=
  {| filterFunction := Some (fun person => String.eqb (gender person) FEMALE) |}.

Definition filterArray (this : Filter) (arrayToFilter : list Person)
  : list Person :=
  match filterFunction this with
  | Some f => filter (fun friend => f friend) arrayToFilter
  | None => arrayToFilter
  end.

(** What a caller can pass as the second argument of the constructors: an
    object with [Filter.prototype] on its prototype chain, or anything else. *)
Inductive JsValue :=
| VFilter (f : Filter)
| VUndefined
| VNull
| VNumber (n : Z)
| VString (s : string)
| VObject (filterFunction : option (Person -> bool)).

(** [filter instanceof Filter] *)
Definition instanceof_Filter (v : JsValue) : bool :=
  match v with
  | VFilter _ => true
  | _ => false
  end.

(** How a call ends: it returns, it throws, or the model ran out of fuel. *)
Inductive JsError :=
| TypeError (message : string).

Inductive completion (A : Type) :=
| Normal (a : A)
| Throw (e : JsError)
| OutOfFuel.

Arguments Normal {A} a.
Arguments Throw {A} e.
Arguments OutOfFuel {A}.

(** [filter.filterArray(arr)]: the method is found on [Filter.prototype];
    calling it on a value that has none throws. *)
Definition filter_filterArray (v : JsValue) (arr : list Person)
  : completion (list Person) :=
  match v with
  | VFilter f => Normal (filterArray f arr)
  | _ => Throw (TypeError "filter.filterArray is not a function")
  end.

(** ** Iterator *)

(** The object under construction: a property is [None] until it is
    assigned. *)
Module IteratorObject.
Record t := mk {
  nextIndex : option Z;
  friends : option (list Person)
}.
Definition fresh : t := {| nextIndex := None; friends := None |}.
End IteratorObject.

(** What [next()] can return. *)
Inductive JsResult :=
| RPerson (p : Person)
| RNull
| RUndefined.

(** [arr[i]] *)
Definition array_get (arr : list Person) (i : Z) : JsResult :=
  if i <? 0 then RUndefined
  else match nth_error arr (Z.to_nat i) with
       | Some p => RPerson p
       | None => RUndefined
       end.

Section Iterator.

Variable localeCompare : string -> string -> Z.

(** [function Iterator(friends, filter)], run on [this]. *)
Definition Iterator (people : list Person) (filter : JsValue)
  (this : IteratorObject.t) : completion unit * IteratorObject.t :=
  if negb (instanceof_Filter filter)
  then (Throw (TypeError "Object for filtration must be a Filter"), this)
  else
    let this1 :=
      {| IteratorObject.nextIndex := Some 0;
         IteratorObject.friends := IteratorObject.friends this |} in
    match getComponentsOfFriendsWithLevel localeCompare people
            (Z.of_nat (length people)) with
    | Some ranked =>
        match filter_filterArray filter ranked with
        | Normal filtered =>
            (Normal tt,
             {| IteratorObject.nextIndex := IteratorObject.nextIndex this1;
                IteratorObject.friends := Some filtered |})
        | Throw e => (Throw e, this1)
        | OutOfFuel => (OutOfFuel, this1)
        end
    | None => (OutOfFuel, this1)
    end.

(** [function LimitedIterator(friends, filter, maxLevel)], run on [this]. *)
Definition LimitedIterator (people : list Person) (filter : JsValue)
  (maxLevel : Z) (this : IteratorObject.t)
  : completion unit * IteratorObject.t :=
  if negb (instanceof_Filter filter)
  then (Throw (TypeError "Object for filtration must be a Filter"), this)
  else
    let this1 :=
      {| IteratorObject.nextIndex := Some 0;
         IteratorObject.friends := IteratorObject.friends this |} in
    match getComponentsOfFriendsWithLevel localeCompare people maxLevel with
    | Some ranked =>
        match filter_filterArray filter ranked with
        | Normal filtered =>
            (Normal tt,
             {| IteratorObject.nextIndex := IteratorObject.nextIndex this1;
                IteratorObject.friends := Some filtered |})
        | Throw e => (Throw e, this1)
        | OutOfFuel => (OutOfFuel, this1)
        end
    | None => (OutOfFuel, this1)
    end.

(** [new C(...)]: the constructor runs on a fresh object, which is the value
    of the expression when the constructor returns. *)
Definition new (ctor : IteratorObject.t -> completion unit * IteratorObject.t)
  : completion IteratorObject.t :=
  match ctor IteratorObject.fresh with
  | (Normal _, this) => Normal this
  | (Throw e, _) => Throw e
  | (OutOfFuel, _) => OutOfFuel
  end.

End Iterator.

(** [Iterator.prototype.next]; reading [length] of [undefined] throws, and a
    comparison with [undefined] is false. *)
Definition next (this : IteratorObject.t) : completion JsResult * IteratorObject.t :=
  match IteratorObject.friends this with
  | None => (Throw (TypeError "Cannot read properties of undefined"), this)
  | Some arr =>
      match IteratorObject.nextIndex this with
      | None => (Normal RNull, this)
      | Some i =>
          if i <? Z.of_nat (length arr)
          then (Normal (array_get arr i),
                {| IteratorObject.nextIndex := Some (i + 1);
                   IteratorObject.friends := Some arr |})
          else (Normal RNull, this)
      end
  end.

(** [Iterator.prototype.done] *)
Definition done (this : IteratorObject.t) : completion bool * IteratorObject.t :=
  match IteratorObject.friends this with
  | None => (Throw (TypeError "Cannot read properties of undefined"), this)
  | Some arr =>
      match IteratorObject.nextIndex this with
      | None => (Normal false, this)
      | Some i => (Normal (i >=? Z.of_nat (length arr)), this)
      end
  end.

(** A sequence of calls on one iterator and what each of them gave. *)
Inductive Call := CallNext | CallDone.

Inductive CallResult :=
| NextResult (r : completion JsResult)
| DoneResult (r : completion bool).

Fixpoint run (calls : list Call) (this : IteratorObject.t)
  : list CallResult * IteratorObject.t :=
  match calls with
  | [] => ([], this)
  | CallNext :: calls' =>
      let (r, this') := next this in
      let (rs, this'') := run calls' this' in
      (NextResult r :: rs, this'')
  | CallDone :: calls' =>
      let (r, this') := done this in
      let (rs, this'') := run calls' this' in
      (DoneResult r :: rs, this'')
  end.

(** ** Vocabulary of the specification *)

(** An object reference determines the object: two entries of [l] with the
    same [ref] are the same record. *)
Definition heap_consistent (l : list Person) : Prop :=
  forall p q, In p l -> In q l -> ref p = ref q -> p = q.

(** The entries of [l] are pairwise distinct objects. *)
Definition distinct_objects (l : list Person) : Prop := NoDup (map ref l).

(** Names identify the persons of the collection. *)
Definition unique_names (l : list Person) : Prop := NoDup (map name l).

(** Friendship is mutual inside the collection. *)
Definition symmetric_friends (graph : list Person) : Prop :=
  forall p q, In p graph -> In q graph ->
    In (name q) (friends p) -> In (name p) (friends q).

(** [q] is a person of the collection whose name [p] lists. *)
Definition edge (graph : list Person) (p q : Person) : Prop :=
  In q graph /\ In (name q) (friends p).

(** Reachability along the friends lists, in their direction. *)
Inductive reach (graph : list Person) (p : Person) : Person -> Prop :=
| reach_refl : reach graph p p
| reach_step q r : reach graph p q -> edge graph q r -> reach graph p r.

(** Adjacency with friendship read as undirected: one of the two lists the
    other's name. *)
Definition adjacent (graph : list Person) (p q : Person) : Prop :=
  In p graph /\ In q graph /\
  (In (name q) (friends p) \/ In (name p) (friends q)).

Inductive connected (graph : list Person) (p : Person) : Person -> Prop :=
| connected_refl : connected graph p p
| connected_step q r :
    connected graph p q -> adjacent graph q r -> connected graph p r.

(** [c] is a maximal set of mutually reachable persons of [graph]. *)
Definition maximal_connected (graph c : list Person) : Prop :=
  (forall x y, In x c -> In y c -> connected graph x y) /\
  (forall x y, In x c -> adjacent graph x y -> In y c).

(** The components cover the collection, lie inside it and no person is in
    two of them. *)
Definition partitions (comps : list (list Person)) (graph : list Person) : Prop :=
  (forall p, In p graph -> exists i c, nth_error comps i = Some c /\ In p c) /\
  (forall i j ci cj p,
      nth_error comps i = Some ci -> nth_error comps j = Some cj ->
      In p ci -> In p cj -> i = j) /\
  (forall c p, In c comps -> In p c -> In p graph).

Definition unvisited (graph visited : list Person) : list Person :=
  filter (fun x => negb (includes visited x)) graph.

(** What holds of [visited] and [queue] each time the loop of [breadthSearch]
    tests its condition. *)
Record bfs_invariant (graph : list Person) (startNode : Person)
  (visited queue : list Person) : Prop := {
  inv_graph : incl visited graph;
  inv_queue : incl queue visited;
  inv_reach : forall v, In v visited -> reach graph startNode v;
  inv_closed : forall v w, In v visited -> edge graph v w ->
                           In v queue \/ In w visited
}.

Definition unvisited_names (graph : list Person) (visited : list string)
  : list Person :=
  filter (fun vertex => negb (includes_str visited (name vertex))) graph.

(** The chain of the specification's example: A (best) - B - C. *)
Definition personA : Person := mkPerson 0 "A" MALE true ["B"].
Definition personB : Person := mkPerson 1 "B" FEMALE false ["A"; "C"].
Definition personC : Person := mkPerson 2 "C" MALE false ["B"].
Definition chain : list Person := [personA; personB; personC].

(** Ann lists Bob, Bob lists nobody; Bob comes first in the collection. *)
Definition bob : Person := mkPerson 0 "Bob" MALE false [].
Definition ann : Person := mkPerson 1 "Ann" FEMALE true ["Bob"].
Definition one_way : list Person := [bob; ann].

(** [friends.find(x => x.name === f)] *)
Definition resolve (people : list Person) (f : string) : option Person :=
  find (fun x => String.eqb (name x) f) people.

(** The inner [for ... of] loop, from a set [s]. *)
Definition add_friends (people : list Person) (s : list (option Person))
  (names : list string) : list (option Person) :=
  fold_left (fun s' friendOfFriend => set_add s' (resolve people friendOfFriend))
    names s.

(** The outer [for ... of] loop, from a set [s]. *)
Definition add_all_friends (people : list Person) (s : list (option Person))
  (nodes : list LeveledPerson) : list (option Person) :=
  fold_left (fun s' graphNode => add_friends people s' (friends (friend graphNode)))
    nodes s.

(** [p] lists a name that resolves to [q] inside the component. *)
Definition lists_to (people : list Person) (p q : Person) : Prop :=
  exists f, In f (friends p) /\ resolve people f = Some q.

(** The persons in the set are persons of the component. *)
Definition set_within (people : list Person) (s : list (option Person)) : Prop :=
  forall q, In (Some q) s -> In q people.

(** A person of the component with the [best] flag. *)
Definition seed (people : list Person) (s : Person) : Prop :=
  In s people /\ best s = true.

(** [hops people n p q]: [q] is [n] friends lists away from [p]. *)
Inductive hops (people : list Person) : nat -> Person -> Person -> Prop :=
| hops_O p : hops people O p p
| hops_S n p q r :
    hops people n p q -> lists_to people q r -> hops people (S n) p r.

(** [L] is the distance of [p] from the nearest seed, a seed being at 1. *)
Definition distance_level (people : list Person) (p : Person) (L : Z) : Prop :=
  (exists s n, seed people s /\ hops people n s p /\ L = Z.of_nat n + 1) /\
  (forall s n, seed people s -> hops people n s p -> L <= Z.of_nat n + 1).

(** The levels the result gives to the object [p]. *)
Definition levels_of (p : Person) (res : list LeveledPerson) : list Z :=
  map level (filter (fun e => same_obj (friend e) p) res).

(** What holds of [nodes] when [setLevelToFriend] is entered at level [c]. *)
Record level_invariant (people : list Person) (c : Z)
  (nodes : list LeveledPerson) : Prop := {
  li_nodup : NoDup (map friend nodes);
  li_incl : incl (map friend nodes) people;
  li_level : forall e, In e nodes ->
      1 <= level e < c /\ distance_level people (friend e) (level e);
  li_complete : forall s n p, seed people s -> hops people n s p ->
      Z.of_nat n + 1 < c -> In p (map friend nodes)
}.

(** Every key of [levels] is above [k]. *)
Definition keys_above (k : Z) (levels : Levels) : Prop :=
  Forall (fun kv => k < fst kv) levels.

(** The keys of [levels] ascend and a bucket holds the entries of its key. *)
Fixpoint levels_wf (levels : Levels) : Prop :=
  match levels with
  | [] => True
  | (k, bucket) :: rest =>
      Forall (fun e => level e = k) bucket /\ keys_above k rest /\ levels_wf rest
  end.

(** All the entries of [levels], bucket after bucket. *)
Definition entries (levels : Levels) : list LeveledPerson :=
  concat (object_values levels).

(** The order of the ranking: by level, then by name. *)
Definition rank_le (localeCompare : string -> string -> Z)
  (x y : LeveledPerson) : Prop :=
  level x < level y \/
  (level x = level y /\
   localeCompare (name (friend x)) (name (friend y)) <= 0).

(** A comparator for the examples: the order of the code units. *)
Definition codeUnitCompare (a b : string) : Z :=
  match String.compare a b with
  | Lt => -1
  | Eq => 0
  | Gt => 1
  end.

(** Eve and Dan are both best friends of somebody else's collection: two
    components, one bucket of two names. *)
Definition eve : Person := mkPerson 0 "Eve" FEMALE true [].
Definition dan : Person := mkPerson 1 "Dan" MALE true ["Sam"].
Definition sam : Person := mkPerson 2 "Sam" MALE false ["Dan"].
Definition two_groups : list Person := [eve; dan; sam].

(** [l1] is [l2] with some elements dropped, the others in their order. *)
Inductive subsequence {A : Type} : list A -> list A -> Prop :=
| sub_nil : subsequence [] []
| sub_skip x l1 l2 : subsequence l1 l2 -> subsequence l1 (x :: l2)
| sub_keep x l1 l2 : subsequence l1 l2 -> subsequence (x :: l1) (x :: l2).

(** The predicate of a filter; the base filter accepts everybody. *)
Definition accepts (this : Filter) (p : Person) : bool :=
  match filterFunction this with
  | Some f => f p
  | None => true
  end.

Definition not_a_filter : JsError :=
  TypeError "Object for filtration must be a Filter".

(** A call that returned. *)
Definition returned (r : CallResult) : Prop :=
  match r with
  | NextResult (Normal _) => True
  | DoneResult (Normal _) => True
  | _ => False
  end.

(** What every call gives once the iterator is exhausted. *)
Definition at_end (r : CallResult) : Prop :=
  r = NextResult (Normal RNull) \/ r = DoneResult (Normal true).

(** An object on which a constructor has run to its end: both properties are
    set and the cursor is not negative. *)
Definition ready (this : IteratorObject.t) : Prop :=
  exists i arr, 0 <= i /\
    this = {| IteratorObject.nextIndex := Some i;
              IteratorObject.friends := Some arr |}.

(** The value of a [new Iterator(...)] or [new LimitedIterator(...)]
    expression. *)
Definition constructed (localeCompare : string -> string -> Z)
  (this : IteratorObject.t) : Prop :=
  exists people filter,
    new (Iterator localeCompare people filter) = Normal this \/
    exists maxLevel,
      new (LimitedIterator localeCompare people filter maxLevel) = Normal this.

(** The levels along a list never go down. *)
Definition level_le (a b : LeveledPerson) : Prop := level a <= level b.

(** Every person that a person of [nodes] lists is in [nodes]. *)
Definition closed_under_friends (people : list Person)
  (nodes : list LeveledPerson) : Prop :=
  forall e q, In e nodes -> lists_to people (friend e) q ->
              In q (map friend nodes).

(** With [c - 1] persons or more, or nothing left to add. *)
Definition enough_or_closed (people : list Person) (c : Z)
  (nodes : list LeveledPerson) : Prop :=
  c - 1 <= Z.of_nat (length nodes) \/ closed_under_friends people nodes.

(** The buckets of [levels] whose key is at most [m]. *)
Definition restrict (m : Z) (levels : Levels) : Levels :=
  filter (fun kv => fst kv <=? m) levels.

(** Every bucket holds entries of its key only. *)
Definition homogeneous (levels : Levels) : Prop :=
  Forall (fun kv => Forall (fun e => level e = fst kv) (snd kv)) levels.

(** [e] is a person of the component that some seed reaches. *)
Definition from_a_seed (people : list Person) (e : LeveledPerson) : Prop :=
  exists s n, seed people s /\ hops people n s (friend e).

(** The results of the [next()] calls among the results of a run. *)
Definition next_results (rs : list CallResult) : list (completion JsResult) :=
  flat_map (fun r => match r with
                     | NextResult x => [x]
                     | DoneResult _ => []
                     end) rs.

Definition is_next (c : Call) : bool :=
  match c with
  | CallNext => true
  | CallDone => false
  end.

(** What [next()] gives for a person, and at the end. *)
Definition yields (p : Person) : CallResult := NextResult (Normal (RPerson p)).
Definition yields_null : CallResult := NextResult (Normal RNull).

(** ** Generic facts on lists and on object identity *)

Lemma same_obj_refl (x : Person) : same_obj x x = true.
Proof. unfold same_obj. apply Nat.eqb_refl. Qed.

Lemma In_includes (l : list Person) (x : Person) :
  In x l -> includes l x = true.
Proof.
  intros H. unfold includes. apply existsb_exists.
  exists x. split; [exact H | apply same_obj_refl].
Qed.

Lemma includes_In (u l : list Person) (x : Person) :
  heap_consistent u -> incl l u -> In x u ->
  includes l x = true -> In x l.
Proof.
  intros Hu Hl Hx H. unfold includes in H.
  apply existsb_exists in H. destruct H as [y [Hy Hxy]].
  unfold same_obj in Hxy. apply Nat.eqb_eq in Hxy.
  rewrite (Hu x y Hx (Hl _ Hy) Hxy). exact Hy.
Qed.

Lemma includes_app (l1 l2 : list Person) (x : Person) :
  includes (l1 ++ l2) x = includes l1 x || includes l2 x.
Proof. unfold includes. apply existsb_app. Qed.

Lemma includes_str_In (l : list string) (s : string) :
  includes_str l s = true <-> In s l.
Proof.
  unfold includes_str. rewrite existsb_exists. split.
  - intros [y [Hy E]]. apply String.eqb_eq in E. subst. exact Hy.
  - intros H. exists s. split; [exact H | apply String.eqb_refl].
Qed.

Lemma includes_str_app (l1 l2 : list string) (s : string) :
  includes_str (l1 ++ l2) s = includes_str l1 s || includes_str l2 s.
Proof. unfold includes_str. apply existsb_app. Qed.

Lemma filter_length_weaken {A} (f g : A -> bool) (l : list A) :
  (forall x, In x l -> g x = true -> f x = true) ->
  (length (filter g l) <= length (filter f l))%nat.
Proof.
  induction l as [|a l IH]; intros H; simpl; [lia|].
  assert (IH' := IH (fun x Hx => H x (or_intror Hx))).
  destruct (g a) eqn:Eg.
  - rewrite (H a (or_introl eq_refl) Eg). simpl. lia.
  - destruct (f a); simpl; lia.
Qed.

Lemma filter_length_strict {A} (f g : A -> bool) (l : list A) (a : A) :
  (forall x, In x l -> g x = true -> f x = true) ->
  In a l -> f a = true -> g a = false ->
  (length (filter g l) < length (filter f l))%nat.
Proof.
  induction l as [|b l IH]; intros H Ha Hf Hg; simpl; [destruct Ha|].
  assert (Hw := filter_length_weaken f g l (fun x Hx => H x (or_intror Hx))).
  destruct Ha as [-> | Ha].
  - rewrite Hf, Hg. simpl. lia.
  - assert (IH' := IH (fun x Hx => H x (or_intror Hx)) Ha Hf Hg).
    destruct (g b) eqn:Eg.
    + rewrite (H b (or_introl eq_refl) Eg). simpl. lia.
    + destruct (f b); simpl; lia.
Qed.

Lemma filter_none {A} (f : A -> bool) (l : list A) :
  (forall x, In x l -> f x = false) -> filter f l = [].
Proof.
  induction l as [|a l IH]; intros H; [reflexivity|]. simpl.
  rewrite (H a (or_introl eq_refl)). apply IH.
  intros x Hx. apply H. right; exact Hx.
Qed.

Lemma NoDup_map_ref_consistent (l : list Person) :
  distinct_objects l -> heap_consistent l.
Proof.
  unfold distinct_objects, heap_consistent.
  induction l as [|a l IH]; intros Hnd p q Hp Hq E; [destruct Hp|].
  simpl in Hnd. inversion Hnd as [|? ? Hna Hnd']; subst.
  destruct Hp as [-> | Hp], Hq as [-> | Hq]; auto.
  - exfalso. apply Hna. rewrite E. apply in_map. exact Hq.
  - exfalso. apply Hna. rewrite <- E. apply in_map. exact Hp.
Qed.

Lemma unique_names_inj (l : list Person) (p q : Person) :
  unique_names l -> In p l -> In q l -> name p = name q -> p = q.
Proof.
  unfold unique_names.
  induction l as [|a l IH]; intros Hnd Hp Hq E; [destruct Hp|].
  simpl in Hnd. inversion Hnd as [|? ? Hna Hnd']; subst.
  destruct Hp as [-> | Hp], Hq as [-> | Hq]; auto.
  - exfalso. apply Hna. rewrite E. apply in_map. exact Hq.
  - exfalso. apply Hna. rewrite <- E. apply in_map. exact Hp.
Qed.

Lemma unique_names_NoDup (l : list Person) : unique_names l -> NoDup l.
Proof. apply NoDup_map_inv. Qed.

(** ** Breadth-first search *)

Lemma nextNodes_In (graph visited : list Person) (node x : Person) :
  In x (nextNodes graph visited node) <->
  edge graph node x /\ includes visited x = false.
Proof.
  unfold nextNodes, edge. rewrite !filter_In, includes_str_In, negb_true_iff.
  tauto.
Qed.

Lemma unvisited_step (visited visited' : list Person) (node : Person) :
  forall g,
  (forall x, includes visited x = true -> includes visited' x = true) ->
  (forall x, In x (nextNodes g visited node) -> includes visited' x = true) ->
  (length (unvisited g visited') + length (nextNodes g visited node)
   <= length (unvisited g visited))%nat.
Proof.
  induction g as [|a g IH]; intros Hmono Hnext; [simpl; lia|].
  assert (IH' : (length (unvisited g visited') + length (nextNodes g visited node)
                 <= length (unvisited g visited))%nat).
  { apply IH; [exact Hmono|]. intros x Hx. apply Hnext.
    apply nextNodes_In in Hx. apply nextNodes_In.
    destruct Hx as [[Hg Hl] Hv]. repeat split; [right|..]; assumption. }
  assert (Ha : includes_str (friends node) (name a) = true ->
               includes visited a = false -> includes visited' a = true).
  { intros H1 H2. apply Hnext. apply nextNodes_In. split; [split|].
    - left; reflexivity.
    - apply includes_str_In; exact H1.
    - exact H2. }
  unfold unvisited, nextNodes in *. cbn [filter].
  destruct (includes_str (friends node) (name a)) eqn:El; cbn [filter];
  destruct (includes visited a) eqn:Ev; cbn [filter negb].
  - rewrite (Hmono a Ev). cbn [negb length]. lia.
  - rewrite (Ha eq_refl eq_refl). cbn [negb length]. lia.
  - rewrite (Hmono a Ev). cbn [negb length]. lia.
  - destruct (includes visited' a); cbn [negb length]; lia.
Qed.

Lemma breadthSearch_loop_total (graph : list Person) :
  forall fuel visited queue,
  (length queue + length (unvisited graph visited) <= fuel)%nat ->
  exists r, breadthSearch_loop fuel graph visited queue = Some r.
Proof.
  induction fuel as [|fuel IH]; intros visited queue Hm.
  - destruct queue; [eexists; reflexivity | simpl in Hm; lia].
  - destruct queue as [|node queue]; [eexists; reflexivity|].
    simpl. apply IH.
    assert (Hs := unvisited_step visited (visited ++ nextNodes graph visited node)
                    node graph).
    rewrite length_app. simpl in Hm.
    assert ((length (unvisited graph (visited ++ nextNodes graph visited node)) +
             length (nextNodes graph visited node)
             <= length (unvisited graph visited))%nat).
    { apply Hs.
      - intros x Hx. rewrite includes_app, Hx. reflexivity.
      - intros x Hx. rewrite includes_app, (In_includes _ _ Hx).
        apply orb_true_r. }
    lia.
Qed.

Lemma breadthSearch_total (startNode : Person) (graph : list Person) :
  exists r, breadthSearch startNode graph = Some r.
Proof.
  unfold breadthSearch. apply breadthSearch_loop_total.
  assert (H := filter_length_le (fun x => negb (includes [startNode] x)) graph).
  unfold unvisited. change (length [startNode]) with 1%nat. lia.
Qed.

Lemma breadthSearch_loop_grows (graph : list Person) :
  forall fuel visited queue r,
  breadthSearch_loop fuel graph visited queue = Some r -> incl visited r.
Proof.
  induction fuel as [|fuel IH]; intros visited queue r H.
  - destruct queue; simpl in H; [|discriminate].
    injection H as <-. apply incl_refl.
  - destruct queue as [|node queue]; simpl in H.
    + injection H as <-. apply incl_refl.
    + apply IH in H. intros x Hx. apply H. apply in_or_app. left; exact Hx.
Qed.

Lemma breadthSearch_start (startNode : Person) (graph r : list Person) :
  breadthSearch startNode graph = Some r -> In startNode r.
Proof.
  intros H. apply breadthSearch_loop_grows in H. apply H. left; reflexivity.
Qed.

Section BreadthSearchCorrect.

Variable graph : list Person.
Variable startNode : Person.
Hypothesis graph_consistent : heap_consistent graph.
Hypothesis start_in_graph : In startNode graph.

Lemma bfs_invariant_step (visited queue : list Person) (node : Person) :
  bfs_invariant graph startNode visited (node :: queue) ->
  bfs_invariant graph startNode (visited ++ nextNodes graph visited node)
                (queue ++ nextNodes graph visited node).
Proof.
  intros [Hg Hq Hr Hc]. constructor.
  - intros x Hx. apply in_app_or in Hx. destruct Hx as [Hx|Hx]; [auto|].
    apply nextNodes_In in Hx. apply Hx.
  - intros x Hx. apply in_app_or in Hx. apply in_or_app.
    destruct Hx as [Hx|Hx]; [left; apply Hq; right; exact Hx | right; exact Hx].
  - intros v Hv. apply in_app_or in Hv. destruct Hv as [Hv|Hv]; [auto|].
    apply nextNodes_In in Hv. destruct Hv as [He _].
    apply reach_step with node; [|exact He].
    apply Hr, Hq. left; reflexivity.
  - intros v w Hv He. apply in_app_or in Hv. destruct Hv as [Hv|Hv].
    + destruct (Hc v w Hv He) as [[-> | Hin] | Hw].
      * right. apply in_or_app.
        destruct (includes visited w) eqn:Ew.
        -- left. apply (includes_In graph); auto. apply He.
        -- right. apply nextNodes_In. split; assumption.
      * left. apply in_or_app. left; exact Hin.
      * right. apply in_or_app. left; exact Hw.
    + left. apply in_or_app. right; exact Hv.
Qed.

Lemma breadthSearch_loop_sound :
  forall fuel visited queue r,
  bfs_invariant graph startNode visited queue ->
  breadthSearch_loop fuel graph visited queue = Some r ->
  bfs_invariant graph startNode r [].
Proof.
  induction fuel as [|fuel IH]; intros visited queue r Hinv H.
  - destruct queue; simpl in H; [|discriminate]. injection H as <-. exact Hinv.
  - destruct queue as [|node queue]; simpl in H.
    + injection H as <-. exact Hinv.
    + eapply IH; [|exact H]. apply bfs_invariant_step. exact Hinv.
Qed.

Lemma breadthSearch_reach (r : list Person) :
  breadthSearch startNode graph = Some r ->
  forall x, In x r <-> reach graph startNode x.
Proof.
  intros H.
  assert (Hinv : bfs_invariant graph startNode r []).
  { eapply breadthSearch_loop_sound; [|exact H]. constructor.
    - intros x [<- | []]. exact start_in_graph.
    - apply incl_refl.
    - intros v [<- | []]. constructor.
    - intros v w [<- | []] _. left. left; reflexivity. }
  destruct Hinv as [Hg _ Hr Hc]. intros x. split; [apply Hr|].
  induction 1 as [|q w Hq IHq He].
  - eapply breadthSearch_start; exact H.
  - destruct (Hc q w IHq He) as [[] | Hw]. exact Hw.
Qed.

Lemma breadthSearch_in_graph (r : list Person) :
  breadthSearch startNode graph = Some r -> incl r graph.
Proof.
  intros H.
  assert (Hinv : bfs_invariant graph startNode r []).
  { eapply breadthSearch_loop_sound; [|exact H]. constructor.
    - intros x [<- | []]. exact start_in_graph.
    - apply incl_refl.
    - intros v [<- | []]. constructor.
    - intros v w [<- | []] _. left. left; reflexivity. }
  apply Hinv.
Qed.

End BreadthSearchCorrect.

Lemma breadthSearch_loop_NoDup (graph : list Person) :
  NoDup graph ->
  forall fuel visited queue r,
  NoDup visited ->
  breadthSearch_loop fuel graph visited queue = Some r -> NoDup r.
Proof.
  intros Hg. induction fuel as [|fuel IH]; intros visited queue r Hv H.
  - destruct queue; simpl in H; [|discriminate]. injection H as <-. exact Hv.
  - destruct queue as [|node queue]; simpl in H.
    + injection H as <-. exact Hv.
    + eapply IH; [|exact H]. apply NoDup_app; [exact Hv| |].
      * unfold nextNodes. apply NoDup_filter, NoDup_filter, Hg.
      * intros a Ha Hn. apply nextNodes_In in Hn. destruct Hn as [_ Hn].
        rewrite (In_includes _ _ Ha) in Hn. discriminate.
Qed.

Lemma breadthSearch_NoDup (startNode : Person) (graph r : list Person) :
  NoDup graph -> breadthSearch startNode graph = Some r -> NoDup r.
Proof.
  intros Hg H. eapply breadthSearch_loop_NoDup; [exact Hg| |exact H].
  constructor; [intros []|constructor].
Qed.

(** ** Reachability *)

Lemma reach_trans (graph : list Person) (p q r : Person) :
  reach graph p q -> reach graph q r -> reach graph p r.
Proof.
  intros Hpq Hqr. induction Hqr as [|r s Hqr IH He]; [exact Hpq|].
  apply reach_step with r; assumption.
Qed.

Lemma reach_in_graph (graph : list Person) (p q : Person) :
  In p graph -> reach graph p q -> In q graph.
Proof. intros Hp H. destruct H as [|q r _ [Hr _]]; assumption. Qed.

Lemma reach_sym (graph : list Person) (p q : Person) :
  symmetric_friends graph -> In p graph -> reach graph p q -> reach graph q p.
Proof.
  intros Hsym Hp H. induction H as [|q r Hpq IH [Hr Hl]]; [constructor|].
  assert (Hq : In q graph) by exact (reach_in_graph graph p q Hp Hpq).
  apply reach_trans with q; [|exact IH].
  apply reach_step with r; [constructor|].
  split; [exact Hq|]. apply Hsym; assumption.
Qed.

Lemma reach_connected (graph : list Person) (p q : Person) :
  In p graph -> reach graph p q -> connected graph p q.
Proof.
  intros Hp H. induction H as [|q r Hpq IH [Hr Hl]]; [constructor|].
  apply connected_step with q; [exact IH|].
  repeat split;
    [exact (reach_in_graph graph p q Hp Hpq) | exact Hr | left; exact Hl].
Qed.

(** ** The loop of the component finder *)

Lemma findConnectedComponents_loop_total (graph : list Person) :
  forall fuel visited components,
  (length (unvisited_names graph visited) <= fuel)%nat ->
  exists r, findConnectedComponents_loop fuel graph visited components = Some r.
Proof.
  induction fuel as [|fuel IH]; intros visited components Hm.
  - simpl.
    destruct (find _ graph) as [node|] eqn:Ef; [|eexists; reflexivity].
    apply find_some in Ef.
    assert (Hin : In node (unvisited_names graph visited))
      by (apply filter_In; exact Ef).
    destruct (unvisited_names graph visited); [destruct Hin | simpl in Hm; lia].
  - simpl.
    destruct (find _ graph) as [node|] eqn:Ef; [|eexists; reflexivity].
    apply find_some in Ef. destruct Ef as [Hin Hnv].
    destruct (breadthSearch_total node graph) as [search Hs].
    rewrite Hs. simpl. apply IH.
    assert ((length (unvisited_names graph (visited ++ map name search))
             < length (unvisited_names graph visited))%nat); [|lia].
    apply filter_length_strict with node; [|exact Hin|exact Hnv|].
    + intros x _. rewrite !negb_true_iff, includes_str_app.
      intros Hx. apply orb_false_iff in Hx. apply Hx.
    + rewrite negb_false_iff. apply includes_str_In, in_or_app. right.
      apply in_map. eapply breadthSearch_start; exact Hs.
Qed.

Lemma findConnectedComponents_total (graph : list Person) :
  exists comps, findConnectedComponents graph = Some comps.
Proof.
  apply findConnectedComponents_loop_total. apply filter_length_le.
Qed.

(** An invariant of the loop holds of what it returns, on an array of names
    that leaves no vertex to pick. *)
Lemma findConnectedComponents_loop_invariant (graph : list Person)
  (P : list string -> list (list Person) -> Prop) :
  (forall visited components node search,
      P visited components ->
      In node graph -> ~ In (name node) visited ->
      breadthSearch node graph = Some search ->
      P (visited ++ map name search) (components ++ [search])) ->
  forall fuel visited components r,
  P visited components ->
  findConnectedComponents_loop fuel graph visited components = Some r ->
  exists visited', P visited' r /\
                   forall p, In p graph -> In (name p) visited'.
Proof.
  intros Hstep. induction fuel as [|fuel IH]; intros visited components r HP H;
    simpl in H; destruct (find _ graph) as [node|] eqn:Ef.
  - discriminate.
  - injection H as <-. exists visited. split; [exact HP|].
    intros p Hp. apply (find_none _ _ Ef) in Hp.
    apply negb_false_iff in Hp. apply includes_str_In; exact Hp.
  - destruct (breadthSearch node graph) as [search|] eqn:Es; [|discriminate].
    simpl in H. apply find_some in Ef. destruct Ef as [Hin Hnv].
    eapply IH; [|exact H]. apply (Hstep _ _ node); [exact HP|exact Hin| |exact Es].
    rewrite negb_true_iff in Hnv. intros Hc.
    apply includes_str_In in Hc. congruence.
  - injection H as <-. exists visited. split; [exact HP|].
    intros p Hp. apply (find_none _ _ Ef) in Hp.
    apply negb_false_iff in Hp. apply includes_str_In; exact Hp.
Qed.

Lemma NoDup_concat_unique {A} (l : list (list A)) :
  NoDup (concat l) ->
  forall i j ci cj p,
  nth_error l i = Some ci -> nth_error l j = Some cj ->
  In p ci -> In p cj -> i = j.
Proof.
  induction l as [|c l IH]; intros Hnd i j ci cj p Hi Hj Hpi Hpj.
  - destruct i; discriminate.
  - simpl in Hnd.
    assert (Hdis : forall x d, In x c -> In d l -> In x d -> False).
    { intros x d Hx Hd Hxd. clear - Hnd Hx Hd Hxd.
      induction c as [|a c IHc]; [destruct Hx|].
      simpl in Hnd. inversion Hnd as [|? ? Hna Hnd']; subst.
      destruct Hx as [-> | Hx]; [|auto].
      apply Hna, in_or_app. right. apply in_concat. exists d. split; assumption. }
    destruct i as [|i], j as [|j]; simpl in Hi, Hj.
    + reflexivity.
    + injection Hi as <-. exfalso.
      apply (Hdis p cj Hpi (nth_error_In _ _ Hj) Hpj).
    + injection Hj as <-. exfalso.
      apply (Hdis p ci Hpj (nth_error_In _ _ Hi) Hpi).
    + f_equal. apply NoDup_app_remove_l in Hnd.
      eapply IH; eassumption.
Qed.

(** ** Concrete collections *)

(** ** Components *)

Lemma reach_class_maximal (graph c : list Person) (root : Person) :
  symmetric_friends graph -> In root graph ->
  (forall x, In x c <-> reach graph root x) ->
  maximal_connected graph c.
Proof.
  intros Hsym Hroot Hc. split.
  - intros x y Hx Hy. apply Hc in Hx. apply Hc in Hy.
    assert (Hxg : In x graph) by exact (reach_in_graph graph root x Hroot Hx).
    apply reach_connected; [exact Hxg|].
    apply reach_trans with root; [|exact Hy].
    apply reach_sym; assumption.
  - intros x y Hx (Hxg & Hyg & Hadj). apply Hc. apply Hc in Hx.
    apply reach_step with x; [exact Hx|]. split; [exact Hyg|].
    destruct Hadj as [H|H]; [exact H|]. apply Hsym; assumption.
Qed.

(** C2, as amended: every component the finder returns is the set of persons
    reachable from its root along the friends lists in their direction (B is
    next to A when A lists B's name); where friendship is mutual in the
    collection, that set is a maximal set of mutually reachable persons under
    the undirected reading. *)
Theorem components_follow_friends_lists (graph : list Person) :
  heap_consistent graph ->
  exists comps,
    findConnectedComponents graph = Some comps /\
    forall c, In c comps ->
      exists root,
        In root graph /\
        (forall x, In x c <-> reach graph root x) /\
        (symmetric_friends graph -> maximal_connected graph c).
Proof.
  intros Hwf. destruct (findConnectedComponents_total graph) as [comps Hc].
  exists comps. split; [exact Hc|].
  pose (P := fun (_ : list string) (cs : list (list Person)) =>
               forall c, In c cs ->
                 exists root, In root graph /\ breadthSearch root graph = Some c).
  destruct (findConnectedComponents_loop_invariant graph P) with
      (fuel := length graph) (visited := @nil string)
      (components := @nil (list Person)) (r := comps) as [v [HP _]].
  - intros visited components node search HP Hin _ Hs c Hcin.
    apply in_app_or in Hcin. destruct Hcin as [Hcin | [<- | []]].
    + apply HP; exact Hcin.
    + exists node. split; assumption.
  - intros c [].
  - exact Hc.
  - intros c Hcin. destruct (HP c Hcin) as [root [Hroot Hs]].
    exists root. split; [exact Hroot|].
    assert (Hr := breadthSearch_reach graph root Hwf Hroot c Hs).
    split; [exact Hr|].
    intros Hsym. eapply reach_class_maximal; eassumption.
Qed.

Lemma components_follow_friends_lists_witness :
  exists comps,
    findConnectedComponents chain = Some comps /\
    forall c, In c comps ->
      exists root,
        In root chain /\
        (forall x, In x c <-> reach chain root x) /\
        (symmetric_friends chain -> maximal_connected chain c).
Proof.
  apply (components_follow_friends_lists chain).
  intros p q Hp Hq. simpl in Hp, Hq.
  destruct Hp as [<- | [<- | [<- | []]]]; destruct Hq as [<- | [<- | [<- | []]]];
    simpl; intros E; first [reflexivity | discriminate E].
Defined.

(** C2 as stated fails: Ann lists Bob, so the two are adjacent when friendship
    is read as undirected, yet the search started at Bob returns Bob alone. *)
Lemma components_not_maximal_one_way :
  exists comps,
    findConnectedComponents one_way = Some comps /\
    ~ (forall c, In c comps -> maximal_connected one_way c).
Proof.
  exists [[bob]; [ann; bob]]. split; [reflexivity|].
  intros H. destruct (H [bob] (or_introl eq_refl)) as [_ Hmax].
  assert (Hin : In ann [bob]).
  { apply (Hmax bob ann); [left; reflexivity|].
    unfold adjacent, one_way. simpl. auto. }
  destruct Hin as [E | []]. discriminate E.
Qed.

(** C1, as amended: on a collection with unique names in which friendship is
    mutual, the components the finder returns partition the collection; every
    person is in exactly one component, and there exactly once. *)
Theorem components_partition (graph : list Person) :
  heap_consistent graph -> unique_names graph -> symmetric_friends graph ->
  exists comps,
    findConnectedComponents graph = Some comps /\
    partitions comps graph /\
    Permutation (concat comps) graph.
Proof.
  intros Hwf Huniq Hsym.
  destruct (findConnectedComponents_total graph) as [comps Hc].
  exists comps. split; [exact Hc|].
  pose (P := fun (visited : list string) (cs : list (list Person)) =>
               visited = map name (concat cs) /\
               NoDup (concat cs) /\
               incl (concat cs) graph /\
               (forall x y, In x (concat cs) -> reach graph x y ->
                            In y (concat cs))).
  destruct (findConnectedComponents_loop_invariant graph P) with
      (fuel := length graph) (visited := @nil string)
      (components := @nil (list Person)) (r := comps)
    as [v [(Hv & Hnd & Hincl & _) Hall]].
  - intros visited components node search (Hv & Hnd & Hincl & Hcl) Hin Hnv Hs.
    assert (Hr := breadthSearch_reach graph node Hwf Hin search Hs).
    assert (Hcat : concat (components ++ [search]) = concat components ++ search).
    { rewrite concat_app. simpl. rewrite app_nil_r. reflexivity. }
    unfold P. rewrite Hcat. repeat split.
    + rewrite map_app, Hv. reflexivity.
    + apply NoDup_app; [exact Hnd| |].
      * eapply breadthSearch_NoDup; [apply unique_names_NoDup; exact Huniq|exact Hs].
      * intros a Ha Has. apply Hnv. rewrite Hv. apply in_map.
        apply (Hcl a node Ha). apply reach_sym; [exact Hsym|exact Hin|].
        apply Hr; exact Has.
    + apply incl_app; [exact Hincl|].
      eapply breadthSearch_in_graph; eassumption.
    + intros x y Hx Hxy. apply in_or_app. apply in_app_or in Hx.
      destruct Hx as [Hx|Hx]; [left; eapply Hcl; eassumption|right].
      apply Hr. apply reach_trans with x; [apply Hr; exact Hx|exact Hxy].
  - unfold P. simpl. repeat split; [constructor|intros x []|intros x y []].
  - exact Hc.
  - assert (Hcover : forall p, In p graph -> In p (concat comps)).
    { intros p Hp. specialize (Hall p Hp). rewrite Hv in Hall.
      apply in_map_iff in Hall. destruct Hall as [q [E Hq]].
      rewrite <- (unique_names_inj graph q p Huniq (Hincl q Hq) Hp E). exact Hq. }
    split; [repeat split|].
    + intros p Hp. apply Hcover, in_concat in Hp. destruct Hp as [c [Hcin Hpc]].
      apply In_nth_error in Hcin. destruct Hcin as [i Hi].
      exists i, c. split; assumption.
    + apply NoDup_concat_unique; exact Hnd.
    + intros c p Hcin Hpc. apply Hincl, in_concat. exists c. split; assumption.
    + apply NoDup_Permutation;
        [exact Hnd | apply unique_names_NoDup; exact Huniq |].
      intros x. split; [apply Hincl | apply Hcover].
Qed.

Lemma components_partition_witness :
  exists comps,
    findConnectedComponents chain = Some comps /\
    partitions comps chain /\
    Permutation (concat comps) chain.
Proof.
  apply (components_partition chain).
  - intros p q Hp Hq. simpl in Hp, Hq.
    destruct Hp as [<- | [<- | [<- | []]]]; destruct Hq as [<- | [<- | [<- | []]]];
      simpl; intros E; first [reflexivity | discriminate E].
  - unfold unique_names. simpl.
    repeat constructor; simpl; intuition discriminate.
  - intros p q Hp Hq. simpl in Hp, Hq.
    destruct Hp as [<- | [<- | [<- | []]]]; destruct Hq as [<- | [<- | [<- | []]]];
      simpl; intuition discriminate.
Defined.

(** C1 as stated fails: Ann lists Bob and Bob does not list Ann; the search
    from Bob returns Bob alone, the search from Ann returns both, and Bob is in
    two components. *)
Lemma components_overlap_one_way :
  exists comps,
    findConnectedComponents one_way = Some comps /\
    ~ partitions comps one_way.
Proof.
  exists [[bob]; [ann; bob]]. split; [reflexivity|].
  intros (_ & Hdisj & _).
  assert (E : 0%nat = 1%nat).
  { apply (Hdisj 0%nat 1%nat [bob] [ann; bob] bob); simpl; auto. }
  discriminate E.
Qed.

(** ** Level Assigner: the set of friends of the persons with a level *)

Lemma setOfAllFriends_unfold (nodes : list LeveledPerson) (people : list Person) :
  setOfAllFriends nodes people = add_all_friends people [] nodes.
Proof. reflexivity. Qed.

Lemma same_value_refl (x : option Person) : same_value x x = true.
Proof. destruct x; simpl; [apply same_obj_refl | reflexivity]. Qed.

Lemma resolve_some (people : list Person) (f : string) (q : Person) :
  resolve people f = Some q -> In q people /\ name q = f.
Proof.
  unfold resolve. intros H. apply find_some in H.
  destruct H as [Hin E]. apply String.eqb_eq in E. split; assumption.
Qed.

Lemma set_add_keeps (s : list (option Person)) (x y : option Person) :
  In x s -> In x (set_add s y).
Proof.
  intros H. unfold set_add. destruct (existsb _ s); [exact H|].
  apply in_or_app. left; exact H.
Qed.

Lemma set_add_inv (s : list (option Person)) (x y : option Person) :
  In x (set_add s y) -> In x s \/ x = y.
Proof.
  unfold set_add. destruct (existsb _ s); [auto|].
  intros H. apply in_app_or in H. destruct H as [H | [<- | []]]; auto.
Qed.

Lemma set_add_NoDup (s : list (option Person)) (y : option Person) :
  NoDup s -> NoDup (set_add s y).
Proof.
  intros H. unfold set_add. destruct (existsb _ s) eqn:E; [exact H|].
  apply NoDup_app; [exact H | constructor; [intros []|constructor] |].
  intros a Ha [-> | []].
  assert (existsb (same_value a) s = true); [|congruence].
  apply existsb_exists. exists a. split; [exact Ha | apply same_value_refl].
Qed.

Lemma set_add_new (people : list Person) (s : list (option Person)) (q : Person) :
  heap_consistent people -> set_within people s -> In q people ->
  In (Some q) (set_add s (Some q)).
Proof.
  intros Hwf Hs Hq. unfold set_add.
  destruct (existsb _ s) eqn:E; [|apply in_or_app; right; left; reflexivity].
  apply existsb_exists in E. destruct E as [[z|] [Hz E]]; simpl in E;
    [|discriminate].
  unfold same_obj in E. apply Nat.eqb_eq in E.
  rewrite (Hwf q z Hq (Hs z Hz) E). exact Hz.
Qed.

Lemma set_add_within (people : list Person) (s : list (option Person)) (f : string) :
  set_within people s -> set_within people (set_add s (resolve people f)).
Proof.
  intros Hs q Hq. apply set_add_inv in Hq. destruct Hq as [Hq | Hq]; [auto|].
  symmetry in Hq. apply resolve_some in Hq. apply Hq.
Qed.

Section SetOfAllFriends.

Variable people : list Person.
Hypothesis people_consistent : heap_consistent people.

Lemma add_friends_within (names : list string) :
  forall s, set_within people s -> set_within people (add_friends people s names).
Proof.
  induction names as [|f names IH]; intros s Hs; [exact Hs|].
  simpl. apply IH, set_add_within, Hs.
Qed.

Lemma add_friends_keeps (names : list string) (x : option Person) :
  forall s, In x s -> In x (add_friends people s names).
Proof.
  induction names as [|f names IH]; intros s Hs; [exact Hs|].
  simpl. apply IH, set_add_keeps, Hs.
Qed.

Lemma add_friends_NoDup (names : list string) :
  forall s, NoDup s -> NoDup (add_friends people s names).
Proof.
  induction names as [|f names IH]; intros s Hs; [exact Hs|].
  simpl. apply IH, set_add_NoDup, Hs.
Qed.

Lemma add_friends_inv (names : list string) (q : Person) :
  forall s, In (Some q) (add_friends people s names) ->
  In (Some q) s \/ exists f, In f names /\ resolve people f = Some q.
Proof.
  induction names as [|f names IH]; intros s H; [left; exact H|].
  simpl in H. apply IH in H. destruct H as [H | [g [Hg Hr]]].
  - apply set_add_inv in H. destruct H as [H | H]; [left; exact H|].
    right. exists f. split; [left; reflexivity | symmetry; exact H].
  - right. exists g. split; [right; exact Hg | exact Hr].
Qed.

Lemma add_friends_adds (names : list string) (f : string) (q : Person) :
  forall s, set_within people s ->
  In f names -> resolve people f = Some q ->
  In (Some q) (add_friends people s names).
Proof.
  induction names as [|g names IH]; intros s Hs Hf Hr; [destruct Hf|].
  simpl. destruct Hf as [-> | Hf].
  - apply add_friends_keeps. rewrite Hr.
    apply (set_add_new people); [exact people_consistent | exact Hs |].
    apply resolve_some in Hr. apply Hr.
  - apply IH; [apply set_add_within; exact Hs | exact Hf | exact Hr].
Qed.

Lemma add_all_friends_within (nodes : list LeveledPerson) :
  forall s, set_within people s ->
  set_within people (add_all_friends people s nodes).
Proof.
  induction nodes as [|e nodes IH]; intros s Hs; [exact Hs|].
  simpl. apply IH, add_friends_within, Hs.
Qed.

Lemma add_all_friends_keeps (nodes : list LeveledPerson) (x : option Person) :
  forall s, In x s -> In x (add_all_friends people s nodes).
Proof.
  induction nodes as [|e nodes IH]; intros s Hs; [exact Hs|].
  simpl. apply IH, add_friends_keeps, Hs.
Qed.

Lemma add_all_friends_NoDup (nodes : list LeveledPerson) :
  forall s, NoDup s -> NoDup (add_all_friends people s nodes).
Proof.
  induction nodes as [|e nodes IH]; intros s Hs; [exact Hs|].
  simpl. apply IH, add_friends_NoDup, Hs.
Qed.

Lemma add_all_friends_inv (nodes : list LeveledPerson) (q : Person) :
  forall s, In (Some q) (add_all_friends people s nodes) ->
  In (Some q) s \/ exists e, In e nodes /\ lists_to people (friend e) q.
Proof.
  induction nodes as [|e nodes IH]; intros s H; [left; exact H|].
  simpl in H. apply IH in H. destruct H as [H | [e' [He' Hl]]].
  - apply add_friends_inv in H. destruct H as [H | H]; [left; exact H|].
    right. exists e. split; [left; reflexivity | exact H].
  - right. exists e'. split; [right; exact He' | exact Hl].
Qed.

Lemma add_all_friends_adds (nodes : list LeveledPerson) (e : LeveledPerson)
  (q : Person) :
  forall s, set_within people s ->
  In e nodes -> lists_to people (friend e) q ->
  In (Some q) (add_all_friends people s nodes).
Proof.
  induction nodes as [|e' nodes IH]; intros s Hs He Hl; [destruct He|].
  simpl. destruct He as [-> | He].
  - apply add_all_friends_keeps. destruct Hl as [f [Hf Hr]].
    eapply add_friends_adds; eassumption.
  - apply IH; [apply add_friends_within; exact Hs | exact He | exact Hl].
Qed.

Lemma truthy_In (s : list (option Person)) (q : Person) :
  In q (truthy s) <-> In (Some q) s.
Proof.
  unfold truthy. rewrite in_flat_map. split.
  - intros [[z|] [Hz Hq]]; simpl in Hq; [|destruct Hq].
    destruct Hq as [<- | []]. exact Hz.
  - intros H. exists (Some q). split; [exact H | left; reflexivity].
Qed.

Lemma truthy_NoDup (s : list (option Person)) : NoDup s -> NoDup (truthy s).
Proof.
  induction s as [|x s IH]; intros H; [constructor|].
  inversion H as [|? ? Hx Hs]; subst. destruct x as [q|]; simpl.
  - constructor; [|apply IH; exact Hs].
    intros Hq. apply Hx. apply truthy_In. exact Hq.
  - apply IH; exact Hs.
Qed.

Lemma allFriends_In (nodes : list LeveledPerson) (q : Person) :
  In q (allFriends nodes people) <->
  (exists e, In e nodes /\ lists_to people (friend e) q) /\
  includes (map friend nodes) q = false.
Proof.
  unfold allFriends. rewrite filter_In, truthy_In, negb_true_iff,
    setOfAllFriends_unfold.
  split; intros [H1 H2]; (split; [|exact H2]).
  - apply add_all_friends_inv in H1. destruct H1 as [[] | H1]. exact H1.
  - destruct H1 as [e [He Hl]].
    apply add_all_friends_adds with e; [intros z []| exact He | exact Hl].
Qed.

Lemma allFriends_NoDup (nodes : list LeveledPerson) :
  NoDup (allFriends nodes people).
Proof.
  unfold allFriends. apply NoDup_filter, truthy_NoDup.
  rewrite setOfAllFriends_unfold. apply add_all_friends_NoDup. constructor.
Qed.

Lemma lists_to_in (p q : Person) : lists_to people p q -> In q people.
Proof. intros [f [_ Hr]]. apply resolve_some in Hr. apply Hr. Qed.

End SetOfAllFriends.

(** ** Level Assigner: levels are distances *)

Lemma hops_in (people : list Person) (n : nat) (s p : Person) :
  In s people -> hops people n s p -> In p people.
Proof.
  intros Hs H. destruct H as [|n s q r _ Hl]; [exact Hs|].
  eapply lists_to_in; exact Hl.
Qed.

Lemma map_friend_leveled (c : Z) (l : list Person) :
  map friend (map (fun x => LevelConstructor x c) l) = l.
Proof.
  induction l as [|a l IH]; simpl; [reflexivity|]. rewrite IH. reflexivity.
Qed.

Lemma includes_false (l : list Person) (x : Person) :
  includes l x = false -> ~ In x l.
Proof. intros H Hin. rewrite (In_includes _ _ Hin) in H. discriminate. Qed.

Lemma setLevelToFriend_total (people : list Person) (maxLevel : Z) :
  forall fuel nodes c,
  maxLevel + 1 - c <= Z.of_nat fuel ->
  exists r, setLevelToFriend fuel nodes people c maxLevel = Some r.
Proof.
  induction fuel as [|fuel IH]; intros nodes c Hf; simpl;
    destruct (Z.gtb_spec c maxLevel) as [Ec|Ec]; simpl;
    try (eexists; reflexivity);
    destruct (length people =? length nodes)%nat; try (eexists; reflexivity).
  - simpl in Hf. lia.
  - apply IH. lia.
Qed.

Section LevelsAreDistances.

Variable people : list Person.
Variable maxLevel : Z.
Hypothesis people_distinct : distinct_objects people.

Let people_consistent : heap_consistent people :=
  NoDup_map_ref_consistent people people_distinct.

Lemma level_invariant_init :
  level_invariant people 2
    (map (fun bestFriend => LevelConstructor bestFriend 1)
       (filter (fun x => best x) people)).
Proof.
  constructor.
  - rewrite map_friend_leveled. apply NoDup_filter.
    apply NoDup_map_inv with (f := ref). exact people_distinct.
  - rewrite map_friend_leveled. apply incl_filter.
  - intros e He. apply in_map_iff in He. destruct He as [q [<- Hq]].
    apply filter_In in Hq. simpl. split; [lia|]. split.
    + exists q, O. repeat split; [apply Hq | apply Hq | constructor].
    + intros s n _ _. lia.
  - intros s n p Hs Hh Hn. rewrite map_friend_leveled.
    destruct Hh as [|n s q r _ _]; [|lia].
    apply filter_In. exact Hs.
Qed.

Lemma level_invariant_step (c : Z) (nodes : list LeveledPerson) :
  2 <= c ->
  level_invariant people c nodes ->
  level_invariant people (c + 1)
    (nodes ++ map (fun x => LevelConstructor x c) (allFriends nodes people)).
Proof.
  intros Hc [Hnd Hincl Hlev Hcomp]. constructor.
  - rewrite map_app, map_friend_leveled. apply NoDup_app; [exact Hnd| |].
    + apply allFriends_NoDup.
    + intros a Ha Hn. apply (allFriends_In people people_consistent) in Hn.
      destruct Hn as [_ Hn]. apply includes_false in Hn. contradiction.
  - rewrite map_app, map_friend_leveled. apply incl_app; [exact Hincl|].
    intros q Hq. apply (allFriends_In people people_consistent) in Hq.
    destruct Hq as [[e [_ Hl]] _]. eapply lists_to_in; exact Hl.
  - intros e He. apply in_app_or in He. destruct He as [He|He].
    + destruct (Hlev e He) as [Hr Hd]. split; [lia | exact Hd].
    + apply in_map_iff in He. destruct He as [q [<- Hq]]. simpl.
      apply (allFriends_In people people_consistent) in Hq.
      destruct Hq as [[e0 [He0 Hl]] Hn].
      destruct (Hlev e0 He0) as [Hr0 [[s [n [Hs [Hh En]]]] _]].
      assert (Hlow : forall s' m, seed people s' -> hops people m s' q ->
                                  c <= Z.of_nat m + 1).
      { intros s' m Hs' Hh'.
        destruct (Z_lt_le_dec (Z.of_nat m + 1) c) as [Hlt|Hle]; [|exact Hle].
        exfalso. apply (includes_false _ _ Hn).
        apply (Hcomp s' m q Hs' Hh' Hlt). }
      assert (Hq : hops people (S n) s q) by (eapply hops_S; eassumption).
      assert (Hup := Hlow s (S n) Hs Hq).
      split; [lia|]. split; [|exact Hlow].
      exists s, (S n). repeat split; [apply Hs | apply Hs | exact Hq | lia].
  - intros s n p Hs Hh Hn. rewrite map_app, map_friend_leveled.
    apply in_or_app.
    destruct (Z_lt_le_dec (Z.of_nat n + 1) c) as [Hlt|Hle];
      [left; eapply Hcomp; eassumption|].
    destruct Hh as [|n s q r Hh Hl]; [simpl in Hle; lia|].
    assert (Hq : In q (map friend nodes)).
    { apply (Hcomp s n q Hs Hh). lia. }
    apply in_map_iff in Hq. destruct Hq as [e0 [<- He0]].
    destruct (includes (map friend nodes) r) eqn:Er.
    + left. apply (includes_In people); auto.
      eapply lists_to_in; exact Hl.
    + right. apply (allFriends_In people people_consistent). split; [|exact Er].
      exists e0. split; assumption.
Qed.

Lemma setLevelToFriend_sound :
  forall fuel nodes c r,
  2 <= c ->
  level_invariant people c nodes ->
  setLevelToFriend fuel nodes people c maxLevel = Some r ->
  exists c', level_invariant people c' r /\
             (maxLevel < c' \/ length people = length r).
Proof.
  induction fuel as [|fuel IH]; intros nodes c r Hc Hinv H; simpl in H;
    destruct (Z.gtb_spec c maxLevel) as [Ec|Ec]; simpl in H.
  - injection H as <-. exists c. split; [exact Hinv|]. left. lia.
  - destruct (length people =? length nodes)%nat eqn:El; [|discriminate].
    injection H as <-. exists c. split; [exact Hinv|]. right.
    apply Nat.eqb_eq. exact El.
  - injection H as <-. exists c. split; [exact Hinv|]. left. lia.
  - destruct (length people =? length nodes)%nat eqn:El.
    + injection H as <-. exists c. split; [exact Hinv|]. right.
      apply Nat.eqb_eq. exact El.
    + apply IH in H; [exact H | lia |].
      apply level_invariant_step; assumption.
Qed.

Lemma levels_of_unique (l : list LeveledPerson) (e : LeveledPerson) :
  NoDup (map friend l) -> incl (map friend l) people ->
  In e l -> levels_of (friend e) l = [level e].
Proof.
  unfold levels_of.
  induction l as [|a l IH]; intros Hnd Hincl He; [destruct He|].
  simpl in Hnd. inversion Hnd as [|? ? Hna Hnd']; subst.
  assert (Hsame : forall x y, In x (a :: l) -> In y (a :: l) ->
            same_obj (friend x) (friend y) = true -> friend x = friend y).
  { intros x y Hx Hy E. unfold same_obj in E. apply Nat.eqb_eq in E.
    apply people_consistent; [| |exact E]; apply Hincl, in_map; assumption. }
  assert (Hincl' : incl (map friend l) people).
  { intros x Hx. apply Hincl. right; exact Hx. }
  simpl. destruct He as [-> | He].
  - rewrite same_obj_refl. simpl. f_equal.
    assert (Hnil : filter (fun e' => same_obj (friend e') (friend e)) l = []).
    { apply filter_none. intros x Hx.
      destruct (same_obj (friend x) (friend e)) eqn:E; [|reflexivity].
      exfalso. apply Hna.
      rewrite <- (Hsame x e (or_intror Hx) (or_introl eq_refl) E).
      apply in_map. exact Hx. }
    rewrite Hnil. reflexivity.
  - destruct (same_obj (friend a) (friend e)) eqn:E.
    + exfalso. apply Hna.
      rewrite (Hsame a e (or_introl eq_refl) (or_intror He) E).
      apply in_map. exact He.
    + apply IH; assumption.
Qed.

End LevelsAreDistances.

Lemma getFriendsLevels_total (people : list Person) (maxLevel : Z)
  (nodes0 : list LeveledPerson) :
  exists res, getFriendsLevels people maxLevel nodes0 = Some res.
Proof.
  unfold getFriendsLevels.
  destruct (Z.leb_spec maxLevel 0) as [Hm|Hm]; simpl; [eexists; reflexivity|].
  destruct (_ <? 1)%nat; [eexists; reflexivity|].
  apply setLevelToFriend_total. lia.
Qed.

(** C3: in a component of pairwise distinct persons, a person that some seed
    reaches along the friends lists within the depth bound gets exactly one
    level, and this level is its distance from the nearest seed, a seed being
    at level 1. *)
Theorem level_is_distance_from_nearest_seed (people : list Person)
  (maxLevel : Z) (nodes0 : list LeveledPerson) (s p : Person) (n : nat) :
  distinct_objects people ->
  seed people s -> hops people n s p -> Z.of_nat n + 1 <= maxLevel ->
  exists res L,
    getFriendsLevels people maxLevel nodes0 = Some res /\
    levels_of p res = [L] /\
    distance_level people p L /\
    L <= maxLevel.
Proof.
  intros Hd Hs Hh Hn.
  assert (Hwf := NoDup_map_ref_consistent people Hd).
  destruct (getFriendsLevels_total people maxLevel nodes0) as [res Hres].
  exists res. assert (Hres0 := Hres). unfold getFriendsLevels in Hres.
  destruct (Z.leb_spec maxLevel 0) as [Hm|Hm]; [lia|].
  assert (Hseed : In s (filter (fun x => best x) people))
    by (apply filter_In; exact Hs).
  assert (Hlen : (length (map (fun x => LevelConstructor x 1)
                            (filter (fun x => best x) people)) <? 1)%nat = false).
  { apply Nat.ltb_ge. rewrite length_map.
    destruct (filter (fun x => best x) people); [destruct Hseed | simpl; lia]. }
  rewrite Hlen in Hres. cbn [orb] in Hres.
  destruct (setLevelToFriend_sound people maxLevel Hd _ _ 2 res
              ltac:(lia) (level_invariant_init people Hd) Hres)
    as [c' [[Hnd Hincl Hlev Hcomp] Hend]].
  assert (Hp : In p (map friend res)).
  { destruct Hend as [Hlt | Hall].
    - apply (Hcomp s n p Hs Hh). lia.
    - apply (@NoDup_length_incl _ (map friend res) people Hnd);
        [rewrite length_map; lia | exact Hincl |].
      apply (hops_in people n s p); [apply Hs | exact Hh]. }
  apply in_map_iff in Hp. destruct Hp as [e [<- He]].
  exists (level e). split; [exact Hres0|]. split; [|split].
  - apply (levels_of_unique people Hd); assumption.
  - apply Hlev; exact He.
  - destruct (Hlev e He) as [_ [_ Hmin]].
    specialize (Hmin s n Hs Hh). lia.
Qed.

Lemma level_is_distance_from_nearest_seed_witness :
  exists res L,
    getFriendsLevels chain 3 [] = Some res /\
    levels_of personC res = [L] /\
    distance_level chain personC L /\
    L <= 3.
Proof.
  apply (level_is_distance_from_nearest_seed chain 3 [] personA personC 2).
  - unfold distinct_objects. simpl.
    repeat constructor; simpl; intuition discriminate.
  - split; [left; reflexivity | reflexivity].
  - apply hops_S with personB; [apply hops_S with personA; [apply hops_O|]|].
    + exists "B". split; [left; reflexivity | reflexivity].
    + exists "C". split; [right; left; reflexivity | reflexivity].
  - simpl. lia.
Defined.

(** C7: the Level Assigner returns the empty sequence, without an error, when
    the depth bound is at most 0 or when no person of the component is flagged
    [best]. *)
Theorem getFriendsLevels_empty (people : list Person) (maxLevel : Z)
  (nodes0 : list LeveledPerson) :
  maxLevel <= 0 \/ (forall p, In p people -> best p = false) ->
  getFriendsLevels people maxLevel nodes0 = Some [].
Proof.
  intros H. unfold getFriendsLevels. destruct H as [H|H].
  - destruct (Z.leb_spec maxLevel 0) as [Hm|Hm]; [reflexivity | lia].
  - rewrite (filter_none (fun x => best x) people H). simpl.
    rewrite orb_true_r. reflexivity.
Qed.

Lemma getFriendsLevels_empty_witness :
  getFriendsLevels chain 0 [] = Some [] /\
  getFriendsLevels [personB; personC] 5 [] = Some [].
Proof.
  split.
  - apply (getFriendsLevels_empty chain 0 []). left. lia.
  - apply (getFriendsLevels_empty [personB; personC] 5 []). right.
    intros p Hp. simpl in Hp. destruct Hp as [<- | [<- | []]]; reflexivity.
Defined.

(** ** Ranker *)

Lemma keys_above_push (k : Z) (x : LeveledPerson) (levels : Levels) :
  keys_above k levels -> k < level x -> keys_above k (levels_push levels x).
Proof.
  unfold keys_above. intros H Hx.
  induction levels as [|[k' b] rest IH]; simpl.
  - constructor; [exact Hx | constructor].
  - inversion H as [|? ? Hk Hrest]; subst.
    destruct (level x =? k'); [constructor; assumption|].
    destruct (level x <? k').
    + constructor; [exact Hx | exact H].
    + constructor; [exact Hk | apply IH; exact Hrest].
Qed.

Lemma levels_wf_push (x : LeveledPerson) (levels : Levels) :
  levels_wf levels -> levels_wf (levels_push levels x).
Proof.
  induction levels as [|[k b] rest IH]; simpl.
  - intros _. repeat split; repeat constructor.
  - intros (Hb & Hk & Hw).
    destruct (Z.eqb_spec (level x) k) as [E|E].
    + simpl. repeat split; [|exact Hk|exact Hw].
      apply Forall_app. split; [exact Hb | constructor; [exact E|constructor]].
    + destruct (Z.ltb_spec (level x) k) as [Hl|Hl]; simpl.
      * repeat split; [repeat constructor| |exact Hb|exact Hk|exact Hw].
        constructor; [exact Hl|].
        unfold keys_above in *. eapply Forall_impl; [|exact Hk].
        intros a Ha. simpl in Ha. lia.
      * repeat split; [exact Hb| |apply IH; exact Hw].
        apply keys_above_push; [exact Hk | lia].
Qed.

Lemma levels_wf_fold (l : list LeveledPerson) :
  forall levels, levels_wf levels -> levels_wf (fold_left levels_push l levels).
Proof.
  induction l as [|x l IH]; intros levels H; [exact H|].
  simpl. apply IH, levels_wf_push, H.
Qed.

Lemma entries_push (x : LeveledPerson) (levels : Levels) :
  Permutation (entries (levels_push levels x)) (entries levels ++ [x]).
Proof.
  unfold entries, object_values.
  induction levels as [|[k b] rest IH]; simpl; [reflexivity|].
  destruct (level x =? k); [|destruct (level x <? k)]; simpl.
  - rewrite <- !app_assoc. apply Permutation_app_head, Permutation_app_comm.
  - change (x :: b ++ concat (map snd rest))
      with ([x] ++ (b ++ concat (map snd rest))).
    apply Permutation_app_comm.
  - rewrite <- app_assoc. apply Permutation_app_head, IH.
Qed.

Lemma entries_fold (l : list LeveledPerson) :
  forall levels,
  Permutation (entries (fold_left levels_push l levels)) (entries levels ++ l).
Proof.
  induction l as [|x l IH]; intros levels; simpl.
  - rewrite app_nil_r. reflexivity.
  - rewrite IH, entries_push, <- app_assoc. reflexivity.
Qed.

Lemma componentsWithLevels_spec (maxLevel : Z) (comps : list (list Person)) :
  forall levels,
  levels_wf levels ->
  exists levels' leveled,
    componentsWithLevels comps maxLevel levels = Some levels' /\
    levels_wf levels' /\
    Forall2 (fun c r => getFriendsLevels c maxLevel [] = Some r) comps leveled /\
    Permutation (entries levels') (entries levels ++ concat leveled).
Proof.
  induction comps as [|c comps IH]; intros levels Hw; simpl.
  - exists levels, []. repeat split; [exact Hw | constructor |].
    simpl. rewrite app_nil_r. reflexivity.
  - destruct (getFriendsLevels_total c maxLevel []) as [r Hr]. rewrite Hr. simpl.
    destruct (IH (fold_left levels_push r levels) (levels_wf_fold r levels Hw))
      as (levels' & leveled & H1 & H2 & H3 & H4).
    exists levels', (r :: leveled). repeat split; [exact H1 | exact H2 | |].
    + constructor; assumption.
    + rewrite H4, entries_fold. simpl. rewrite <- app_assoc. reflexivity.
Qed.

Lemma StronglySorted_app {A} (R : A -> A -> Prop) (l1 l2 : list A) :
  StronglySorted R l1 -> StronglySorted R l2 ->
  (forall x y, In x l1 -> In y l2 -> R x y) ->
  StronglySorted R (l1 ++ l2).
Proof.
  induction l1 as [|a l1 IH]; intros H1 H2 H; [exact H2|].
  simpl. apply StronglySorted_inv in H1. destruct H1 as [H1 Ha].
  constructor.
  - apply IH; [exact H1 | exact H2 |].
    intros x y Hx Hy. apply H; [right; exact Hx | exact Hy].
  - apply Forall_app. split; [exact Ha|].
    apply Forall_forall. intros y Hy. apply H; [left; reflexivity | exact Hy].
Qed.

Section RankerCorrect.

Variable localeCompare : string -> string -> Z.

(** [localeCompare] is a consistent comparator: it orders the strings
    totally, up to the strings it holds equal. *)
Hypothesis localeCompare_total :
  forall a b, localeCompare a b <= 0 \/ localeCompare b a <= 0.
Hypothesis localeCompare_trans :
  forall a b c, localeCompare a b <= 0 -> localeCompare b c <= 0 ->
                localeCompare a c <= 0.

Let le (x y : LeveledPerson) : Prop := compareFn localeCompare x y <= 0.

Lemma sort_insert_perm (x : LeveledPerson) (l : list LeveledPerson) :
  Permutation (sort_insert localeCompare x l) (x :: l).
Proof.
  induction l as [|y l IH]; simpl; [reflexivity|].
  destruct (compareFn localeCompare x y <=? 0); [reflexivity|].
  rewrite IH. apply perm_swap.
Qed.

Lemma sort_perm (l : list LeveledPerson) :
  Permutation (sort localeCompare l) l.
Proof.
  induction l as [|x l IH]; simpl; [reflexivity|].
  rewrite sort_insert_perm, IH. reflexivity.
Qed.

Lemma sort_insert_sorted (x : LeveledPerson) (l : list LeveledPerson) :
  StronglySorted le l -> StronglySorted le (sort_insert localeCompare x l).
Proof.
  induction l as [|y l IH]; intros H; simpl.
  - constructor; constructor.
  - apply StronglySorted_inv in H. destruct H as [Hl Hy].
    destruct (Z.leb_spec (compareFn localeCompare x y) 0) as [Hxy|Hxy].
    + constructor; [constructor; assumption|].
      constructor; [exact Hxy|].
      eapply Forall_impl; [|exact Hy]. intros z Hz. unfold le, compareFn in *.
      eapply localeCompare_trans; eassumption.
    + constructor; [apply IH; exact Hl|].
      eapply Permutation_Forall; [symmetry; apply sort_insert_perm|].
      constructor; [|exact Hy]. unfold le, compareFn in *.
      destruct (localeCompare_total (name (friend x)) (name (friend y)));
        [lia | assumption].
Qed.

Lemma sort_sorted (l : list LeveledPerson) :
  StronglySorted le (sort localeCompare l).
Proof.
  induction l as [|x l IH]; simpl; [constructor|].
  apply sort_insert_sorted, IH.
Qed.

Lemma bucket_sorted (k : Z) (bucket : list LeveledPerson) :
  Forall (fun e => level e = k) bucket ->
  StronglySorted (rank_le localeCompare) (sort localeCompare bucket).
Proof.
  intros Hb.
  assert (Hs : Forall (fun e => level e = k) (sort localeCompare bucket)).
  { eapply Permutation_Forall; [symmetry; apply sort_perm | exact Hb]. }
  assert (H := sort_sorted bucket).
  induction H as [|a l Hl IH Ha]; [constructor|].
  inversion Hs as [|? ? Hka Hkl]; subst.
  constructor; [apply IH; exact Hkl|].
  rewrite Forall_forall in *. intros y Hy. right.
  split; [rewrite (Hkl y Hy); reflexivity | apply Ha; exact Hy].
Qed.

Lemma sorted_entries_above (k : Z) (levels : Levels) :
  levels_wf levels -> keys_above k levels ->
  Forall (fun e => k < level e)
    (concat (map (sort localeCompare) (object_values levels))).
Proof.
  induction levels as [|[k' b] rest IH]; simpl; intros Hw Hk; [constructor|].
  destruct Hw as (Hb & Hk' & Hw). inversion Hk as [|? ? Hkk Hkr]; subst.
  apply Forall_app. split.
  - eapply Permutation_Forall; [symmetry; apply sort_perm|].
    eapply Forall_impl; [|exact Hb]. intros e He. simpl in *. lia.
  - apply IH; assumption.
Qed.

Lemma sorted_entries_sorted (levels : Levels) :
  levels_wf levels ->
  StronglySorted (rank_le localeCompare)
    (concat (map (sort localeCompare) (object_values levels))).
Proof.
  induction levels as [|[k b] rest IH]; simpl; intros Hw; [constructor|].
  destruct Hw as (Hb & Hk & Hw).
  apply StronglySorted_app.
  - eapply bucket_sorted; exact Hb.
  - apply IH; exact Hw.
  - intros x y Hx Hy. left.
    assert (Hxk : level x = k).
    { apply (Permutation_in _ (sort_perm b)) in Hx.
      rewrite Forall_forall in Hb. apply Hb; exact Hx. }
    assert (Hyk := sorted_entries_above k rest Hw Hk).
    rewrite Forall_forall in Hyk. specialize (Hyk y Hy). lia.
Qed.

Lemma sorted_entries_perm (levels : Levels) :
  Permutation (concat (map (sort localeCompare) (object_values levels)))
              (entries levels).
Proof.
  unfold entries, object_values.
  induction levels as [|[k b] rest IH]; simpl; [reflexivity|].
  apply Permutation_app; [apply sort_perm | exact IH].
Qed.

End RankerCorrect.

Lemma rankedLevels_total (localeCompare : string -> string -> Z)
  (people : list Person) (maxLevel : Z) :
  exists ranked,
    rankedLevels localeCompare people maxLevel = Some ranked /\
    getComponentsOfFriendsWithLevel localeCompare people maxLevel
    = Some (map friend ranked).
Proof.
  unfold getComponentsOfFriendsWithLevel, rankedLevels.
  destruct (findConnectedComponents_total people) as [comps Hc]. rewrite Hc.
  destruct (componentsWithLevels_spec maxLevel comps [] I)
    as (levels & leveled & Hl & _). simpl. rewrite Hl. simpl.
  eexists. split; reflexivity.
Qed.

Lemma string_compare_trans (a : string) :
  forall b c, String.compare a b <> Gt -> String.compare b c <> Gt ->
              String.compare a c <> Gt.
Proof.
  induction a as [|a0 a IH]; intros [|b0 b] [|c0 c]; simpl;
    try congruence.
  unfold Ascii.compare.
  destruct (N.compare_spec (N_of_ascii a0) (N_of_ascii b0));
  destruct (N.compare_spec (N_of_ascii b0) (N_of_ascii c0));
  destruct (N.compare_spec (N_of_ascii a0) (N_of_ascii c0));
    try congruence; try (exfalso; lia).
  apply IH.
Qed.

Lemma codeUnitCompare_total (a b : string) :
  codeUnitCompare a b <= 0 \/ codeUnitCompare b a <= 0.
Proof.
  unfold codeUnitCompare. rewrite (String.compare_antisym a b).
  destruct (String.compare b a); simpl; lia.
Qed.

Lemma codeUnitCompare_trans (a b c : string) :
  codeUnitCompare a b <= 0 -> codeUnitCompare b c <= 0 ->
  codeUnitCompare a c <= 0.
Proof.
  unfold codeUnitCompare. intros Hab Hbc.
  assert (H := string_compare_trans a b c).
  destruct (String.compare a b); destruct (String.compare b c);
    destruct (String.compare a c); try lia;
    exfalso; apply H; congruence.
Qed.

(** C4: when [localeCompare] orders the names, the ranked sequence is sorted
    by level across all the components together and by name inside a level; it
    holds the leveled entries of all the components, each once. *)
Theorem ranking_sorted_by_level_then_name
  (localeCompare : string -> string -> Z) (people : list Person) (maxLevel : Z) :
  (forall a b, localeCompare a b <= 0 \/ localeCompare b a <= 0) ->
  (forall a b c, localeCompare a b <= 0 -> localeCompare b c <= 0 ->
                 localeCompare a c <= 0) ->
  exists ranked,
    rankedLevels localeCompare people maxLevel = Some ranked /\
    getComponentsOfFriendsWithLevel localeCompare people maxLevel
    = Some (map friend ranked) /\
    StronglySorted (rank_le localeCompare) ranked /\
    exists comps leveled,
      findConnectedComponents people = Some comps /\
      Forall2 (fun c r => getFriendsLevels c maxLevel [] = Some r) comps leveled /\
      Permutation ranked (concat leveled).
Proof.
  intros Htotal Htrans.
  unfold getComponentsOfFriendsWithLevel, rankedLevels.
  destruct (findConnectedComponents_total people) as [comps Hc]. rewrite Hc.
  destruct (componentsWithLevels_spec maxLevel comps [] I)
    as (levels & leveled & Hl & Hw & Hf & Hp). simpl. rewrite Hl. simpl.
  eexists. split; [reflexivity|]. split; [reflexivity|]. split.
  - apply sorted_entries_sorted; assumption.
  - exists comps, leveled. repeat split; [exact Hf|].
    rewrite sorted_entries_perm. exact Hp.
Qed.

Lemma ranking_sorted_by_level_then_name_witness :
  exists ranked,
    rankedLevels codeUnitCompare two_groups 3 = Some ranked /\
    getComponentsOfFriendsWithLevel codeUnitCompare two_groups 3
    = Some (map friend ranked) /\
    StronglySorted (rank_le codeUnitCompare) ranked /\
    exists comps leveled,
      findConnectedComponents two_groups = Some comps /\
      Forall2 (fun c r => getFriendsLevels c 3 [] = Some r) comps leveled /\
      Permutation ranked (concat leveled).
Proof.
  apply (ranking_sorted_by_level_then_name codeUnitCompare two_groups 3).
  - exact codeUnitCompare_total.
  - exact codeUnitCompare_trans.
Defined.

Example two_groups_ranking :
  getComponentsOfFriendsWithLevel codeUnitCompare two_groups 3
  = Some [dan; eve; sam].
Proof. reflexivity. Qed.

(** ** Filters *)

Lemma subsequence_refl {A} (l : list A) : subsequence l l.
Proof. induction l; [apply sub_nil | apply sub_keep; assumption]. Qed.

Lemma filter_subsequence {A} (f : A -> bool) (l : list A) :
  subsequence (filter f l) l.
Proof.
  induction l as [|a l IH]; simpl; [constructor|].
  destruct (f a); [apply sub_keep | apply sub_skip]; exact IH.
Qed.

Lemma filter_greatest {A} (f : A -> bool) (l l' : list A) :
  subsequence l' l -> Forall (fun x => f x = true) l' ->
  subsequence l' (filter f l).
Proof.
  induction 1 as [|x l1 l2 Hs IH|x l1 l2 Hs IH]; intros Hf; simpl.
  - constructor.
  - destruct (f x); [apply sub_skip|]; apply IH; exact Hf.
  - inversion Hf as [|? ? Hx Hl]; subst. rewrite Hx.
    apply sub_keep. apply IH; exact Hl.
Qed.

(** C9: [filterArray] returns the persons of the sequence that the filter
    accepts, in the order they had: a subsequence of the input, all of it
    accepted, that contains every accepted subsequence of the input.  The base
    filter returns the sequence as it is; the two presets accept by gender. *)
Theorem filterArray_keeps_order (this : Filter) (ranked : list Person) :
  subsequence (filterArray this ranked) ranked /\
  Forall (fun p => accepts this p = true) (filterArray this ranked) /\
  (forall kept, subsequence kept ranked ->
     Forall (fun p => accepts this p = true) kept ->
     subsequence kept (filterArray this ranked)) /\
  filterArray newFilter ranked = ranked /\
  (forall p, accepts newFilter p = true) /\
  (forall p, accepts MaleFilter p = true <-> gender p = MALE) /\
  (forall p, accepts FemaleFilter p = true <-> gender p = FEMALE).
Proof.
  unfold filterArray, accepts. repeat split.
  - destruct (filterFunction this) as [f|];
      [apply filter_subsequence | apply subsequence_refl].
  - destruct (filterFunction this) as [f|].
    + apply Forall_forall. intros p Hp. apply filter_In in Hp. apply Hp.
    + apply Forall_forall. reflexivity.
  - intros kept Hs Hf. destruct (filterFunction this) as [f|];
      [apply filter_greatest; assumption | exact Hs].
  - simpl. apply String.eqb_eq.
  - simpl. apply String.eqb_eq.
  - simpl. apply String.eqb_eq.
  - simpl. apply String.eqb_eq.
Qed.

Example filterArray_male :
  filterArray MaleFilter chain = [personA; personC] /\
  filterArray FemaleFilter chain = [personB] /\
  filterArray newFilter chain = chain.
Proof. repeat split. Qed.

(** ** Iterators *)

Lemma Iterator_is_LimitedIterator (localeCompare : string -> string -> Z)
  (people : list Person) (filter : JsValue) (this : IteratorObject.t) :
  Iterator localeCompare people filter this
  = LimitedIterator localeCompare people filter (Z.of_nat (length people)) this.
Proof. reflexivity. Qed.

Lemma LimitedIterator_ready (localeCompare : string -> string -> Z)
  (people : list Person) (filter : JsValue) (maxLevel : Z)
  (this : IteratorObject.t) :
  new (LimitedIterator localeCompare people filter maxLevel) = Normal this ->
  ready this.
Proof.
  unfold new, LimitedIterator.
  destruct (instanceof_Filter filter); simpl; [|discriminate].
  destruct (getComponentsOfFriendsWithLevel _ _ _); [|discriminate].
  destruct (filter_filterArray filter l); try discriminate.
  intros H. injection H as <-. exists 0, a. split; [lia | reflexivity].
Qed.

Lemma constructed_ready (localeCompare : string -> string -> Z)
  (this : IteratorObject.t) :
  constructed localeCompare this -> ready this.
Proof.
  intros (people & filter & [H | [maxLevel H]]).
  - change (Iterator localeCompare people filter)
      with (LimitedIterator localeCompare people filter
              (Z.of_nat (length people))) in H.
    eapply LimitedIterator_ready; exact H.
  - eapply LimitedIterator_ready; exact H.
Qed.

Lemma next_ready (this : IteratorObject.t) :
  ready this ->
  ready (snd (next this)) /\ returned (NextResult (fst (next this))).
Proof.
  intros (i & arr & Hi & ->). unfold next. simpl.
  destruct (Z.ltb_spec i (Z.of_nat (length arr))); simpl; split; try exact I.
  - exists (i + 1), arr. split; [lia | reflexivity].
  - exists i, arr. split; [lia | reflexivity].
Qed.

Lemma done_ready (this : IteratorObject.t) :
  ready this ->
  snd (done this) = this /\ returned (DoneResult (fst (done this))).
Proof.
  intros (i & arr & Hi & ->). unfold done. simpl. split; [reflexivity | exact I].
Qed.

Lemma run_ready (calls : list Call) :
  forall this, ready this ->
  ready (snd (run calls this)) /\ Forall returned (fst (run calls this)).
Proof.
  induction calls as [|c calls IH]; intros this Hr; simpl.
  - split; [exact Hr | constructor].
  - destruct c.
    + destruct (next_ready this Hr) as [Hn Hret].
      destruct (next this) as [r this'] eqn:En. simpl in Hn, Hret.
      destruct (IH this' Hn) as [IH1 IH2].
      destruct (run calls this') as [rs this'']. simpl in *.
      split; [exact IH1 | constructor; assumption].
    + destruct (done_ready this Hr) as [Hn Hret].
      destruct (done this) as [r this'] eqn:En. simpl in Hn, Hret. subst this'.
      destruct (IH this Hr) as [IH1 IH2].
      destruct (run calls this) as [rs this'']. simpl in *.
      split; [exact IH1 | constructor; assumption].
Qed.

Lemma run_at_end (this : IteratorObject.t) :
  ready this -> fst (done this) = Normal true ->
  forall calls,
    Forall at_end (fst (run calls this)) /\ snd (run calls this) = this.
Proof.
  intros (i & arr & Hi & ->) Hd. unfold done in Hd. simpl in Hd.
  injection Hd as Hd.
  induction calls as [|c calls [IH1 IH2]]; simpl; [split; [constructor|reflexivity]|].
  destruct c; unfold next, done; simpl.
  - destruct (Z.ltb_spec i (Z.of_nat (length arr))) as [Hlt|Hge].
    + apply Z.geb_le in Hd. lia.
    + destruct (run calls _) as [rs this'']. simpl in *.
      split; [constructor; [left; reflexivity | exact IH1] | exact IH2].
  - destruct (run calls _) as [rs this'']. simpl in *. rewrite Hd.
    split; [constructor; [right; reflexivity | exact IH1] | exact IH2].
Qed.

Lemma construction_succeeds (localeCompare : string -> string -> Z)
  (people : list Person) (f : Filter) (maxLevel : Z) :
  exists ranked,
    getComponentsOfFriendsWithLevel localeCompare people maxLevel = Some ranked /\
    new (LimitedIterator localeCompare people (VFilter f) maxLevel)
    = Normal {| IteratorObject.nextIndex := Some 0;
                IteratorObject.friends := Some (filterArray f ranked) |}.
Proof.
  destruct (rankedLevels_total localeCompare people maxLevel) as [r [_ Hr]].
  exists (map friend r). split; [exact Hr|].
  unfold new, LimitedIterator. simpl. rewrite Hr. reflexivity.
Qed.

(** C5: a second argument that is not a [Filter] makes both constructors throw
    the [TypeError] before they assign anything to the object; an iterator
    that was constructed never throws from [next()] or [done()]. *)
Theorem non_filter_rejected_at_construction
  (localeCompare : string -> string -> Z) (people : list Person)
  (filter : JsValue) (maxLevel : Z) (this : IteratorObject.t) :
  instanceof_Filter filter = false ->
  Iterator localeCompare people filter this = (Throw not_a_filter, this) /\
  LimitedIterator localeCompare people filter maxLevel this
  = (Throw not_a_filter, this) /\
  new (Iterator localeCompare people filter) = Throw not_a_filter /\
  new (LimitedIterator localeCompare people filter maxLevel)
  = Throw not_a_filter /\
  (forall obj calls,
      constructed localeCompare obj -> Forall returned (fst (run calls obj))).
Proof.
  intros H. unfold new, Iterator, LimitedIterator. rewrite H. simpl.
  repeat split.
  intros obj calls Hc. apply run_ready. eapply constructed_ready; exact Hc.
Qed.

Lemma non_filter_rejected_at_construction_witness :
  Iterator codeUnitCompare chain (VObject (Some (fun _ => true)))
    IteratorObject.fresh
  = (Throw not_a_filter, IteratorObject.fresh) /\
  LimitedIterator codeUnitCompare chain (VObject (Some (fun _ => true))) 2
    IteratorObject.fresh
  = (Throw not_a_filter, IteratorObject.fresh) /\
  new (Iterator codeUnitCompare chain (VObject (Some (fun _ => true))))
  = Throw not_a_filter /\
  new (LimitedIterator codeUnitCompare chain (VObject (Some (fun _ => true))) 2)
  = Throw not_a_filter /\
  (forall obj calls,
      constructed codeUnitCompare obj -> Forall returned (fst (run calls obj))).
Proof.
  apply (non_filter_rejected_at_construction codeUnitCompare chain
           (VObject (Some (fun _ => true))) 2 IteratorObject.fresh).
  reflexivity.
Defined.

(** C6: on a constructed iterator, after any sequence of calls, [done()] is
    true exactly when [next()] would return [null]; when it is false [next()]
    returns a person; [done()] leaves the object as it is; and once [done()] is
    true every later call returns ([null] from [next()], true from [done()])
    and leaves the cursor where it is. *)
Theorem done_iff_next_returns_sentinel
  (localeCompare : string -> string -> Z) (obj : IteratorObject.t)
  (calls : list Call) :
  constructed localeCompare obj ->
  let this := snd (run calls obj) in
  (fst (done this) = Normal true <-> fst (next this) = Normal RNull) /\
  (fst (done this) = Normal true \/
   (fst (done this) = Normal false /\
    exists p, fst (next this) = Normal (RPerson p))) /\
  snd (done this) = this /\
  (fst (done this) = Normal true ->
   forall later,
     Forall at_end (fst (run later this)) /\ snd (run later this) = this).
Proof.
  intros Hc this.
  assert (Hr : ready this).
  { apply run_ready. eapply constructed_ready; exact Hc. }
  split; [|split; [|split]].
  - destruct Hr as (i & arr & Hi & ->). unfold done, next. simpl.
    destruct (Z.ltb_spec i (Z.of_nat (length arr))) as [Hlt|Hge]; simpl.
    + split; intros H.
      * injection H as H. apply Z.geb_le in H. lia.
      * exfalso. injection H as H. unfold array_get in H.
        destruct (i <? 0); [discriminate|].
        destruct (nth_error arr (Z.to_nat i)); discriminate.
    + split; intros _; [reflexivity|]. f_equal. apply Z.geb_le. lia.
  - destruct Hr as (i & arr & Hi & ->). unfold done, next. simpl.
    destruct (Z.ltb_spec i (Z.of_nat (length arr))) as [Hlt|Hge]; simpl.
    + right. split.
      * f_equal. destruct (Z.geb_spec i (Z.of_nat (length arr))); [lia|reflexivity].
      * unfold array_get. destruct (Z.ltb_spec i 0); [lia|].
        destruct (nth_error arr (Z.to_nat i)) as [p|] eqn:En;
          [exists p; reflexivity|].
        apply nth_error_None in En. lia.
    + left. f_equal. apply Z.geb_le. lia.
  - apply done_ready; exact Hr.
  - intros Hd later. apply run_at_end; assumption.
Qed.

Lemma done_iff_next_returns_sentinel_witness :
  let this :=
    snd (run [CallNext; CallDone; CallNext]
           {| IteratorObject.nextIndex := Some 0;
              IteratorObject.friends := Some chain |}) in
  (fst (done this) = Normal true <-> fst (next this) = Normal RNull) /\
  (fst (done this) = Normal true \/
   (fst (done this) = Normal false /\
    exists p, fst (next this) = Normal (RPerson p))) /\
  snd (done this) = this /\
  (fst (done this) = Normal true ->
   forall later,
     Forall at_end (fst (run later this)) /\ snd (run later this) = this).
Proof.
  apply (done_iff_next_returns_sentinel codeUnitCompare
           {| IteratorObject.nextIndex := Some 0;
              IteratorObject.friends := Some chain |}
           [CallNext; CallDone; CallNext]).
  exists chain, (VFilter newFilter). left. reflexivity.
Defined.

(** C8: for A (best, friend of B), B (friend of A and C) and C (friend of B),
    whatever their genders and the locale, the levels are 1, 2 and 3 and the
    unbounded iterator with the base filter yields A, B, C and then [null]. *)
Theorem example_chain_yields_A_B_C
  (localeCompare : string -> string -> Z) (gA gB gC : string) :
  let A := mkPerson 0 "A" gA true ["B"] in
  let B := mkPerson 1 "B" gB false ["A"; "C"] in
  let C := mkPerson 2 "C" gC false ["B"] in
  let it := {| IteratorObject.nextIndex := Some 0;
               IteratorObject.friends := Some [A; B; C] |} in
  rankedLevels localeCompare [A; B; C] 3
  = Some [LevelConstructor A 1; LevelConstructor B 2; LevelConstructor C 3] /\
  new (Iterator localeCompare [A; B; C] (VFilter newFilter)) = Normal it /\
  fst (run [CallDone; CallNext; CallNext; CallNext; CallDone; CallNext] it)
  = [DoneResult (Normal false);
     NextResult (Normal (RPerson A));
     NextResult (Normal (RPerson B));
     NextResult (Normal (RPerson C));
     DoneResult (Normal true);
     NextResult (Normal RNull)].
Proof. intros A B C it. repeat split. Qed.

(** C10: [LimitedIterator] with the number of persons as its bound runs as
    [Iterator] does, on every object and for every second argument: the same
    completion, the same materialized sequence and cursor, hence the same
    results of any calls of [next()] and [done()]. *)
Theorem LimitedIterator_at_length_is_Iterator
  (localeCompare : string -> string -> Z) (people : list Person)
  (filter : JsValue) :
  (forall this,
      LimitedIterator localeCompare people filter (Z.of_nat (length people)) this
      = Iterator localeCompare people filter this) /\
  new (LimitedIterator localeCompare people filter (Z.of_nat (length people)))
  = new (Iterator localeCompare people filter) /\
  (exists ranked,
      getComponentsOfFriendsWithLevel localeCompare people
        (Z.of_nat (length people)) = Some ranked /\
      forall f, filter = VFilter f ->
        new (Iterator localeCompare people filter)
        = Normal {| IteratorObject.nextIndex := Some 0;
                    IteratorObject.friends := Some (filterArray f ranked) |}).
Proof.
  split; [reflexivity|]. split; [reflexivity|].
  destruct (rankedLevels_total localeCompare people (Z.of_nat (length people)))
    as [r [_ Hr]].
  exists (map friend r). split; [exact Hr|].
  intros f ->. unfold new, Iterator. simpl. rewrite Hr. reflexivity.
Qed.

(** * Further properties of the library *)

(** ** The search from one vertex *)

Lemma includes_ref (l : list Person) (x : Person) :
  includes l x = true <-> In (ref x) (map ref l).
Proof.
  unfold includes. rewrite existsb_exists, in_map_iff. unfold same_obj.
  split; intros [y [H1 H2]]; exists y.
  - apply Nat.eqb_eq in H2. split; [symmetry; exact H2 | exact H1].
  - split; [exact H2 | apply Nat.eqb_eq; symmetry; exact H1].
Qed.

Lemma breadthSearch_loop_extends (graph : list Person) :
  forall fuel visited queue r,
  breadthSearch_loop fuel graph visited queue = Some r ->
  exists extra,
    r = visited ++ extra /\ incl extra graph /\
    (length extra + length (unvisited graph r)
     <= length (unvisited graph visited))%nat.
Proof.
  induction fuel as [|fuel IH]; intros visited queue r H.
  - destruct queue; simpl in H; [|discriminate]. injection H as <-.
    exists []. rewrite app_nil_r. repeat split; [intros x []|simpl; lia].
  - destruct queue as [|node queue]; simpl in H.
    + injection H as <-.
      exists []. rewrite app_nil_r. repeat split; [intros x []|simpl; lia].
    + apply IH in H. destruct H as (extra & -> & Hincl & Hlen).
      exists (nextNodes graph visited node ++ extra).
      rewrite app_assoc. split; [reflexivity|]. split.
      * apply incl_app; [|exact Hincl].
        intros x Hx. apply nextNodes_In in Hx. apply Hx.
      * assert (Hs := unvisited_step visited
                        (visited ++ nextNodes graph visited node) node graph).
        rewrite length_app.
        assert ((length (unvisited graph (visited ++ nextNodes graph visited node))
                 + length (nextNodes graph visited node)
                 <= length (unvisited graph visited))%nat); [|lia].
        apply Hs.
        -- intros x Hx. rewrite includes_app, Hx. reflexivity.
        -- intros x Hx. rewrite includes_app, (In_includes _ _ Hx).
           apply orb_true_r.
Qed.

(** X1: The loop of [breadthSearch] ends on every input: the search returns the
    start vertex followed by persons of the graph, at most as many as the
    graph has entries. *)
Theorem breadthSearch_returns (startNode : Person) (graph : list Person) :
  exists rest,
    breadthSearch startNode graph = Some (startNode :: rest) /\
    incl rest graph /\
    (length rest <= length graph)%nat.
Proof.
  destruct (breadthSearch_total startNode graph) as [r Hr].
  destruct (breadthSearch_loop_extends graph _ _ _ _ Hr)
    as (extra & -> & Hincl & Hlen).
  exists extra. split; [exact Hr|]. split; [exact Hincl|].
  assert (H := filter_length_le (fun x => negb (includes [startNode] x)) graph).
  unfold unvisited in *. lia.
Qed.

Lemma breadthSearch_loop_distinct (graph : list Person) :
  distinct_objects graph ->
  forall fuel visited queue r,
  distinct_objects visited ->
  breadthSearch_loop fuel graph visited queue = Some r ->
  distinct_objects r.
Proof.
  unfold distinct_objects. intros Hg.
  induction fuel as [|fuel IH]; intros visited queue r Hv H.
  - destruct queue; simpl in H; [|discriminate]. injection H as <-. exact Hv.
  - destruct queue as [|node queue]; simpl in H.
    + injection H as <-. exact Hv.
    + eapply IH; [|exact H]. rewrite map_app.
      apply NoDup_app; [exact Hv| |].
      * unfold nextNodes.
        assert (Hf : forall (f : Person -> bool) l,
                   NoDup (map ref l) -> NoDup (map ref (filter f l))).
        { intros f l. induction l as [|a l IHl]; intros Hl; [constructor|].
          simpl in Hl. inversion Hl as [|? ? Ha Hl']; subst. simpl.
          destruct (f a); [|apply IHl; exact Hl'].
          simpl. constructor; [|apply IHl; exact Hl'].
          intros Hc. apply Ha. apply in_map_iff in Hc.
          destruct Hc as [y [E Hy]]. apply filter_In in Hy.
          rewrite <- E. apply in_map. apply Hy. }
        apply Hf, Hf, Hg.
      * intros a Ha Hn. apply in_map_iff in Hn. destruct Hn as [x [<- Hx]].
        apply nextNodes_In in Hx. destruct Hx as [_ Hx].
        apply includes_ref in Ha. congruence.
Qed.

(** X2: On a collection of pairwise distinct objects the search never returns the
    same object twice. *)
Theorem breadthSearch_no_object_twice (startNode : Person)
  (graph r : list Person) :
  distinct_objects graph ->
  breadthSearch startNode graph = Some r ->
  distinct_objects r.
Proof.
  intros Hg H. eapply breadthSearch_loop_distinct; [exact Hg| |exact H].
  unfold distinct_objects. simpl. constructor; [intros []|constructor].
Qed.

Lemma breadthSearch_no_object_twice_witness :
  distinct_objects [personB; personA; personC].
Proof.
  apply (breadthSearch_no_object_twice personB chain [personB; personA; personC]).
  - unfold distinct_objects. simpl.
    repeat constructor; simpl; intuition discriminate.
  - reflexivity.
Defined.

(** ** The component finder on any collection *)

Lemma Forall2_snoc {A B} (R : A -> B -> Prop) (l1 : list A) (l2 : list B)
  (a : A) (b : B) :
  Forall2 R l1 l2 -> R a b -> Forall2 R (l1 ++ [a]) (l2 ++ [b]).
Proof.
  intros H Hab. apply Forall2_app; [exact H|]. constructor; [exact Hab|constructor].
Qed.

Lemma Forall2_left_member {A B} (R : A -> B -> Prop) (l1 : list A)
  (l2 : list B) (a : A) :
  Forall2 R l1 l2 -> In a l1 -> exists b, In b l2 /\ R a b.
Proof.
  induction 1 as [|x y l1 l2 Hxy _ IH]; intros Ha; [destruct Ha|].
  destruct Ha as [<- | Ha].
  - exists y. split; [left; reflexivity | exact Hxy].
  - destruct (IH Ha) as [b [Hb HR]]. exists b. split; [right; exact Hb | exact HR].
Qed.

(** X3: The loop of [findConnectedComponents] ends on every collection.  Every
    component is the search from a root of the collection, the roots have
    pairwise different names, so there are at most as many components as
    persons, and the name of every person is the name of a member of some
    component. *)
Theorem findConnectedComponents_returns (graph : list Person) :
  exists comps roots,
    findConnectedComponents graph = Some comps /\
    Forall2 (fun root c => In root graph /\ breadthSearch root graph = Some c)
      roots comps /\
    NoDup (map name roots) /\
    (length comps <= length graph)%nat /\
    (forall p, In p graph ->
       exists c q, In c comps /\ In q c /\ name q = name p).
Proof.
  destruct (findConnectedComponents_total graph) as [comps Hc].
  pose (P := fun (visited : list string) (cs : list (list Person)) =>
               exists roots,
                 Forall2 (fun root c => In root graph /\
                                        breadthSearch root graph = Some c)
                   roots cs /\
                 NoDup (map name roots) /\
                 incl (map name roots) visited /\
                 visited = map name (concat cs)).
  destruct (findConnectedComponents_loop_invariant graph P) with
      (fuel := length graph) (visited := @nil string)
      (components := @nil (list Person)) (r := comps)
    as [v [(roots & Hf & Hnd & Hincl & Hv) Hall]].
  - intros visited components node search (roots & Hf & Hnd & Hincl & Hv)
      Hin Hnv Hs.
    exists (roots ++ [node]). repeat split.
    + apply Forall2_snoc; [exact Hf | split; assumption].
    + rewrite map_app. apply NoDup_app; [exact Hnd| |].
      * simpl. constructor; [intros []|constructor].
      * intros a Ha [<- | []]. apply Hnv, Hincl, Ha.
    + rewrite map_app. apply incl_app.
      * intros x Hx. apply in_or_app. left. apply Hincl, Hx.
      * intros x [<- | []]. apply in_or_app. right. apply in_map.
        eapply breadthSearch_start; exact Hs.
    + rewrite concat_app, map_app, Hv. simpl. rewrite app_nil_r. reflexivity.
  - exists []. repeat split; [constructor | constructor | intros x []].
  - exact Hc.
  - exists comps, roots. split; [exact Hc|]. split; [exact Hf|].
    split; [exact Hnd|]. split.
    + rewrite <- (Forall2_length Hf), <- (length_map name roots),
        <- (length_map name graph).
      apply NoDup_incl_length; [exact Hnd|].
      intros x Hx. apply in_map_iff in Hx. destruct Hx as [r [<- Hr]].
      apply in_map.
      destruct (Forall2_left_member _ _ _ _ Hf Hr) as [c [_ [Hg _]]]. exact Hg.
    + intros p Hp. specialize (Hall p Hp). rewrite Hv in Hall.
      apply in_map_iff in Hall. destruct Hall as [q [E Hq]].
      apply in_concat in Hq. destruct Hq as [c [Hcin Hqc]].
      exists c, q. repeat split; assumption.
Qed.

(** ** The Level Assigner on any component *)

Lemma allFriends_within (nodes : list LeveledPerson) (people : list Person)
  (q : Person) :
  In q (allFriends nodes people) -> In q people.
Proof.
  unfold allFriends. intros H. apply filter_In in H. destruct H as [H _].
  apply truthy_In in H. rewrite setOfAllFriends_unfold in H.
  apply add_all_friends_inv in H. destruct H as [[] | [e [_ Hl]]].
  eapply lists_to_in; exact Hl.
Qed.

Lemma setLevelToFriend_extends (people : list Person) (maxLevel : Z) :
  forall fuel nodes c r,
  setLevelToFriend fuel nodes people c maxLevel = Some r ->
  exists extra,
    r = nodes ++ extra /\
    Forall (fun e => c <= level e <= maxLevel /\ In (friend e) people) extra /\
    StronglySorted level_le extra.
Proof.
  induction fuel as [|fuel IH]; intros nodes c r H; simpl in H;
    destruct (Z.gtb_spec c maxLevel) as [Ec|Ec]; simpl in H;
    try (injection H as <-; exists []; rewrite app_nil_r;
         repeat split; constructor).
  - destruct (length people =? length nodes)%nat; [|discriminate].
    injection H as <-. exists []. rewrite app_nil_r. repeat split; constructor.
  - destruct (length people =? length nodes)%nat.
    + injection H as <-. exists []. rewrite app_nil_r. repeat split; constructor.
    + apply IH in H. destruct H as (extra & -> & Hf & Hs).
      exists (map (fun x => LevelConstructor x c) (allFriends nodes people) ++ extra).
      rewrite app_assoc. split; [reflexivity|].
      assert (Hadded : Forall (fun e => level e = c /\ In (friend e) people)
                         (map (fun x => LevelConstructor x c)
                            (allFriends nodes people))).
      { apply Forall_forall. intros e He. apply in_map_iff in He.
        destruct He as [q [<- Hq]]. simpl. split; [reflexivity|].
        eapply allFriends_within; exact Hq. }
      split.
      * apply Forall_app. split.
        -- eapply Forall_impl; [|exact Hadded]. intros e [He1 He2].
           split; [lia | exact He2].
        -- eapply Forall_impl; [|exact Hf]. intros e [He1 He2].
           split; [lia | exact He2].
      * apply StronglySorted_app; [|exact Hs|].
        -- clear - Hadded.
           induction (map (fun x => LevelConstructor x c) (allFriends nodes people))
             as [|a l IHl]; [constructor|].
           inversion Hadded as [|? ? [Ha _] Hl]; subst.
           constructor; [apply IHl; exact Hl|].
           eapply Forall_impl; [|exact Hl]. intros e [He _].
           unfold level_le. lia.
        -- intros x y Hx Hy. rewrite Forall_forall in Hadded, Hf.
           destruct (Hadded x Hx) as [Hx1 _]. destruct (Hf y Hy) as [Hy1 _].
           unfold level_le. lia.
Qed.

(** X4: Whatever the component and the bound, the Level Assigner returns: every
    entry is a person of the component with a level from 1 to the bound, the
    levels never go down along the result, and the entries of level 1 are the
    persons flagged [best], in the order of the component, when there is
    anything to return. *)
Theorem getFriendsLevels_levels_in_bound (people : list Person) (maxLevel : Z)
  (nodes0 : list LeveledPerson) :
  exists res,
    getFriendsLevels people maxLevel nodes0 = Some res /\
    Forall (fun e => 1 <= level e <= maxLevel /\ In (friend e) people) res /\
    StronglySorted level_le res /\
    (res = [] \/
     filter (fun e => level e =? 1) res
     = map (fun b => LevelConstructor b 1) (filter (fun x => best x) people)).
Proof.
  unfold getFriendsLevels.
  destruct (Z.leb_spec maxLevel 0) as [Hm|Hm]; simpl.
  { exists []. split; [reflexivity|]. split; [constructor|].
    split; [constructor | left; reflexivity]. }
  destruct (_ <? 1)%nat.
  { exists []. split; [reflexivity|]. split; [constructor|].
    split; [constructor | left; reflexivity]. }
  destruct (setLevelToFriend_total people maxLevel (Z.to_nat maxLevel)
              (map (fun b => LevelConstructor b 1)
                 (filter (fun x => best x) people)) 2 ltac:(lia)) as [r Hr].
  exists r. split; [exact Hr|].
  destruct (setLevelToFriend_extends people maxLevel _ _ _ _ Hr)
    as (extra & -> & Hf & Hs).
  assert (Hinit : Forall (fun e => level e = 1 /\ In (friend e) people)
                    (map (fun b => LevelConstructor b 1)
                       (filter (fun x => best x) people))).
  { apply Forall_forall. intros e He. apply in_map_iff in He.
    destruct He as [q [<- Hq]]. apply filter_In in Hq. simpl.
    split; [reflexivity | apply Hq]. }
  split; [|split].
  - apply Forall_app. split.
    + eapply Forall_impl; [|exact Hinit]. intros e [He1 He2].
      split; [lia | exact He2].
    + eapply Forall_impl; [|exact Hf]. intros e [He1 He2].
      split; [lia | exact He2].
  - apply StronglySorted_app; [|exact Hs|].
    + clear - Hinit.
      induction (map (fun b => LevelConstructor b 1)
                   (filter (fun x => best x) people)) as [|a l IHl];
        [constructor|].
      inversion Hinit as [|? ? [Ha _] Hl]; subst.
      constructor; [apply IHl; exact Hl|].
      eapply Forall_impl; [|exact Hl]. intros e [He _].
      unfold level_le. lia.
    + intros x y Hx Hy. rewrite Forall_forall in Hinit, Hf.
      destruct (Hinit x Hx) as [Hx1 _]. destruct (Hf y Hy) as [Hy1 _].
      unfold level_le. lia.
  - right. rewrite filter_app.
    rewrite (filter_none (fun e => level e =? 1) extra).
    + rewrite app_nil_r. apply forallb_filter_id. apply forallb_forall.
      intros e He. rewrite Forall_forall in Hinit.
      destruct (Hinit e He) as [-> _]. reflexivity.
    + intros e He. rewrite Forall_forall in Hf. destruct (Hf e He) as [He1 _].
      apply Z.eqb_neq. lia.
Qed.

Section UnboundedLevels.

Variable people : list Person.
Variable maxLevel : Z.
Hypothesis people_distinct : distinct_objects people.

Let people_consistent : heap_consistent people :=
  NoDup_map_ref_consistent people people_distinct.

Lemma enough_or_closed_step (c : Z) (nodes : list LeveledPerson) :
  level_invariant people c nodes ->
  enough_or_closed people c nodes ->
  enough_or_closed people (c + 1)
    (nodes ++ map (fun x => LevelConstructor x c) (allFriends nodes people)).
Proof.
  intros Hinv HK.
  assert (Hclosed_nil : closed_under_friends people nodes ->
                        allFriends nodes people = []).
  { intros Hcl. destruct (allFriends nodes people) as [|q l] eqn:E; [reflexivity|].
    exfalso. assert (Hq : In q (allFriends nodes people))
      by (rewrite E; left; reflexivity).
    apply (allFriends_In people people_consistent) in Hq.
    destruct Hq as [[e [He Hl]] Hn].
    apply (includes_false _ _ Hn). eapply Hcl; eassumption. }
  assert (Hnil_closed : allFriends nodes people = [] ->
                        closed_under_friends people nodes).
  { intros E e q He Hl.
    destruct (includes (map friend nodes) q) eqn:Ei.
    - apply (includes_In people); [exact people_consistent | apply Hinv | | exact Ei].
      eapply lists_to_in; exact Hl.
    - exfalso.
      assert (Hq : In q (allFriends nodes people)).
      { apply (allFriends_In people people_consistent). split; [|exact Ei].
        exists e. split; assumption. }
      rewrite E in Hq. destruct Hq. }
  destruct (allFriends nodes people) as [|q l] eqn:E.
  - simpl. rewrite app_nil_r. right.
    destruct HK as [_ | Hcl]; [apply Hnil_closed; reflexivity | exact Hcl].
  - destruct HK as [Hlen | Hcl]; [|discriminate (Hclosed_nil Hcl)].
    left. rewrite length_app, length_map. simpl. lia.
Qed.

Lemma setLevelToFriend_sound_closed :
  forall fuel nodes c r,
  2 <= c ->
  level_invariant people c nodes ->
  enough_or_closed people c nodes ->
  setLevelToFriend fuel nodes people c maxLevel = Some r ->
  exists c', 2 <= c' /\
             level_invariant people c' r /\
             enough_or_closed people c' r /\
             (maxLevel < c' \/ length people = length r).
Proof.
  induction fuel as [|fuel IH]; intros nodes c r Hc Hinv HK H; simpl in H;
    destruct (Z.gtb_spec c maxLevel) as [Ec|Ec]; simpl in H.
  - injection H as <-. exists c. split; [exact Hc|]. split; [exact Hinv|]. split; [exact HK|].
    left; lia.
  - destruct (length people =? length nodes)%nat eqn:El; [|discriminate].
    injection H as <-. exists c. split; [exact Hc|]. split; [exact Hinv|]. split; [exact HK|].
    right.
    apply Nat.eqb_eq. exact El.
  - injection H as <-. exists c. split; [exact Hc|]. split; [exact Hinv|]. split; [exact HK|].
    left; lia.
  - destruct (length people =? length nodes)%nat eqn:El.
    + injection H as <-. exists c. split; [exact Hc|]. split; [exact Hinv|]. split; [exact HK|].
    right.
      apply Nat.eqb_eq. exact El.
    + apply IH in H; [exact H | lia | |].
      * apply level_invariant_step; assumption.
      * apply enough_or_closed_step; assumption.
Qed.

Lemma closed_contains_hops (nodes : list LeveledPerson) (s p : Person) (n : nat) :
  closed_under_friends people nodes ->
  In s (map friend nodes) -> hops people n s p -> In p (map friend nodes).
Proof.
  intros Hcl Hs Hh. induction Hh as [|n s q r Hh IH Hl]; [exact Hs|].
  specialize (IH Hs). apply in_map_iff in IH. destruct IH as [e [<- He]].
  eapply Hcl; eassumption.
Qed.

End UnboundedLevels.

(** X5: With a bound that is at least the number of persons of the component, as
    the unbounded iterator passes, the Level Assigner leaves nobody out: a
    person that a seed reaches in any number of hops gets exactly one level,
    its distance from the nearest seed. *)
Theorem bound_of_all_persons_reaches_everyone (people : list Person)
  (maxLevel : Z) (nodes0 : list LeveledPerson) (s p : Person) (n : nat) :
  distinct_objects people ->
  Z.of_nat (length people) <= maxLevel ->
  seed people s -> hops people n s p ->
  exists res L,
    getFriendsLevels people maxLevel nodes0 = Some res /\
    levels_of p res = [L] /\
    distance_level people p L.
Proof.
  intros Hd Hmax Hs Hh.
  destruct (getFriendsLevels_total people maxLevel nodes0) as [res Hres].
  exists res. assert (Hres0 := Hres). unfold getFriendsLevels in Hres.
  assert (Hpos : (1 <= length people)%nat).
  { destruct Hs as [Hs _]. destruct people; [destruct Hs | simpl; lia]. }
  destruct (Z.leb_spec maxLevel 0) as [Hm|Hm]; [lia|].
  assert (Hseed : In s (filter (fun x => best x) people))
    by (apply filter_In; exact Hs).
  assert (Hlen : (1 <= length (map (fun x => LevelConstructor x 1)
                                 (filter (fun x => best x) people)))%nat).
  { rewrite length_map.
    destruct (filter (fun x => best x) people); [destruct Hseed | simpl; lia]. }
  destruct (Nat.ltb_spec
              (length (map (fun x => LevelConstructor x 1)
                         (filter (fun x => best x) people))) 1) as [Hlt|_];
    [lia|].
  cbn [orb] in Hres.
  destruct (setLevelToFriend_sound_closed people maxLevel Hd _ _ 2 res
              ltac:(lia) (level_invariant_init people Hd)
              ltac:(left; lia) Hres)
    as (c' & Hc' & [Hnd Hincl Hlev Hcomp] & HK & Hend).
  assert (Hall : (length people <= length (map friend res))%nat ->
                 In p (map friend res)).
  { intros Hle.
    apply (@NoDup_length_incl _ (map friend res) people Hnd Hle Hincl).
    apply (hops_in people n s p); [apply Hs | exact Hh]. }
  assert (Hp : In p (map friend res)).
  { destruct Hend as [Hlt | Heq]; [|apply Hall; rewrite length_map; lia].
    destruct HK as [Hlen' | Hcl]; [apply Hall; rewrite length_map; lia|].
    apply (closed_contains_hops people res s p n Hcl); [|exact Hh].
    apply (Hcomp s O s Hs); [constructor | simpl; lia]. }
  apply in_map_iff in Hp. destruct Hp as [e [<- He]].
  exists (level e). split; [exact Hres0|]. split.
  - apply (levels_of_unique people Hd); assumption.
  - apply Hlev; exact He.
Qed.

Lemma bound_of_all_persons_reaches_everyone_witness :
  exists res L,
    getFriendsLevels chain 7 [] = Some res /\
    levels_of personC res = [L] /\
    distance_level chain personC L.
Proof.
  apply (bound_of_all_persons_reaches_everyone chain 7 [] personA personC 2).
  - unfold distinct_objects. simpl.
    repeat constructor; simpl; intuition discriminate.
  - simpl. lia.
  - split; [left; reflexivity | reflexivity].
  - apply hops_S with personB; [apply hops_S with personA; [apply hops_O|]|].
    + exists "B". split; [left; reflexivity | reflexivity].
    + exists "C". split; [right; left; reflexivity | reflexivity].
Defined.

(** ** Raising the depth bound *)

Lemma setLevelToFriend_bound_mono (people : list Person) (m m' : Z) :
  m <= m' ->
  forall fuel fuel' nodes c r r',
  c <= m + 1 ->
  Forall (fun e => level e < c) nodes ->
  setLevelToFriend fuel nodes people c m = Some r ->
  setLevelToFriend fuel' nodes people c m' = Some r' ->
  r = filter (fun e => level e <=? m) r'.
Proof.
  intros Hmm.
  assert (Hkeep : forall nodes c, c <= m + 1 ->
            Forall (fun e => level e < c) nodes ->
            filter (fun e => level e <=? m) nodes = nodes).
  { intros nodes c Hc Hf. apply forallb_filter_id, forallb_forall.
    intros e He. rewrite Forall_forall in Hf. specialize (Hf e He).
    apply Z.leb_le. lia. }
  induction fuel as [|fuel IH]; intros fuel' nodes c r r' Hc Hf H H'.
  - simpl in H. destruct (Z.gtb_spec c m) as [Ec|Ec]; simpl in H.
    + injection H as <-.
      destruct (setLevelToFriend_extends people m' _ _ _ _ H')
        as (extra & -> & Hex & _).
      rewrite filter_app, (Hkeep nodes c Hc Hf), filter_none, app_nil_r;
        [reflexivity|].
      intros e He. rewrite Forall_forall in Hex. destruct (Hex e He) as [He1 _].
      apply Z.leb_gt. lia.
    + destruct (length people =? length nodes)%nat eqn:El; [|discriminate].
      injection H as <-.
      destruct fuel'; simpl in H'; rewrite El, orb_true_r in H';
        injection H' as <-; symmetry; apply (Hkeep nodes c Hc Hf).
  - simpl in H. destruct (Z.gtb_spec c m) as [Ec|Ec]; simpl in H.
    + injection H as <-.
      destruct (setLevelToFriend_extends people m' _ _ _ _ H')
        as (extra & -> & Hex & _).
      rewrite filter_app, (Hkeep nodes c Hc Hf), filter_none, app_nil_r;
        [reflexivity|].
      intros e He. rewrite Forall_forall in Hex. destruct (Hex e He) as [He1 _].
      apply Z.leb_gt. lia.
    + destruct (length people =? length nodes)%nat eqn:El.
      * injection H as <-.
        destruct fuel'; simpl in H'; rewrite El, orb_true_r in H';
          injection H' as <-; symmetry; apply (Hkeep nodes c Hc Hf).
      * destruct fuel' as [|fuel']; simpl in H';
          destruct (Z.gtb_spec c m') as [Ec'|Ec']; try lia;
          simpl in H'; rewrite El in H'; [discriminate|].
        eapply IH; [| |exact H|exact H']; [lia|].
        apply Forall_app. split.
        -- eapply Forall_impl; [|exact Hf]. intros e He. simpl in He. lia.
        -- apply Forall_forall. intros e He. apply in_map_iff in He.
           destruct He as [q [<- _]]. simpl. lia.
Qed.

Lemma getFriendsLevels_bound_mono (people : list Person) (m m' : Z)
  (n0 n0' r r' : list LeveledPerson) :
  m <= m' ->
  getFriendsLevels people m n0 = Some r ->
  getFriendsLevels people m' n0' = Some r' ->
  r = filter (fun e => level e <=? m) r'.
Proof.
  intros Hmm H H'. unfold getFriendsLevels in H, H'.
  destruct (Nat.ltb_spec
              (length (map (fun b => LevelConstructor b 1)
                         (filter (fun x => best x) people))) 1) as [Hl|Hl].
  { rewrite orb_true_r in H, H'. injection H as <-. injection H' as <-.
    reflexivity. }
  rewrite orb_false_r in H, H'.
  assert (Hinit : forall c, 2 <= c ->
            Forall (fun e => level e < c)
              (map (fun b => LevelConstructor b 1)
                 (filter (fun x => best x) people))).
  { intros c Hc. apply Forall_forall. intros e He. apply in_map_iff in He.
    destruct He as [q [<- _]]. simpl. lia. }
  destruct (Z.leb_spec m 0) as [Hm|Hm].
  - injection H as <-. destruct (Z.leb_spec m' 0) as [Hm'|Hm'].
    + injection H' as <-. reflexivity.
    + destruct (setLevelToFriend_extends people m' _ _ _ _ H')
        as (extra & -> & Hex & _).
      symmetry. apply filter_none. intros e He. apply Z.leb_gt.
      apply in_app_or in He. destruct He as [He|He].
      * specialize (Hinit 2 ltac:(lia)). rewrite Forall_forall in Hinit.
        apply in_map_iff in He. destruct He as [q [<- _]]. simpl. lia.
      * rewrite Forall_forall in Hex. destruct (Hex e He) as [He1 _]. lia.
  - destruct (Z.leb_spec m' 0) as [Hm'|Hm']; [lia|].
    eapply (setLevelToFriend_bound_mono people m m' Hmm);
      [| |exact H|exact H']; [lia | apply Hinit; lia].
Qed.

(** X6: The Level Assigner with a smaller bound returns what it returns with a
    larger bound, cut at the smaller bound: the levels do not depend on the
    bound. *)
Theorem getFriendsLevels_cut_at_bound (people : list Person) (m m' : Z)
  (n0 n0' : list LeveledPerson) :
  m <= m' ->
  exists r r',
    getFriendsLevels people m n0 = Some r /\
    getFriendsLevels people m' n0' = Some r' /\
    r = filter (fun e => level e <=? m) r'.
Proof.
  intros Hmm.
  destruct (getFriendsLevels_total people m n0) as [r Hr].
  destruct (getFriendsLevels_total people m' n0') as [r' Hr'].
  exists r, r'. split; [exact Hr|]. split; [exact Hr'|].
  eapply getFriendsLevels_bound_mono; eassumption.
Qed.

Lemma getFriendsLevels_cut_at_bound_witness :
  exists r r',
    getFriendsLevels chain 2 [] = Some r /\
    getFriendsLevels chain 3 [] = Some r' /\
    r = filter (fun e => level e <=? 2) r'.
Proof.
  apply (getFriendsLevels_cut_at_bound chain 2 3 [] []). lia.
Defined.

Lemma restrict_above (m k : Z) (levels : Levels) :
  keys_above k levels -> m <= k -> restrict m levels = [].
Proof.
  intros Hk Hm. apply filter_none. intros kv Hkv.
  unfold keys_above in Hk. rewrite Forall_forall in Hk. specialize (Hk kv Hkv).
  apply Z.leb_gt. lia.
Qed.

Lemma levels_push_restrict_keep (m : Z) (x : LeveledPerson) (levels : Levels) :
  levels_wf levels -> level x <= m ->
  levels_push (restrict m levels) x = restrict m (levels_push levels x).
Proof.
  intros Hw Hx. induction levels as [|[k b] rest IH]; simpl.
  - destruct (Z.leb_spec (level x) m); [reflexivity | lia].
  - destruct Hw as (Hb & Hk & Hw). specialize (IH Hw).
    destruct (Z.eqb_spec (level x) k) as [E|E].
    + simpl. destruct (Z.leb_spec k m); [|lia]. simpl.
      destruct (Z.eqb_spec (level x) k); [reflexivity | contradiction].
    + destruct (Z.ltb_spec (level x) k) as [Hl|Hl]; simpl.
      * destruct (Z.leb_spec (level x) m); [|lia].
        destruct (Z.leb_spec k m); simpl.
        -- destruct (Z.eqb_spec (level x) k); [contradiction|].
           destruct (Z.ltb_spec (level x) k); [reflexivity | lia].
        -- fold (restrict m rest).
           rewrite (restrict_above m k rest Hk ltac:(lia)). reflexivity.
      * destruct (Z.leb_spec k m); [|lia]. simpl.
        destruct (Z.eqb_spec (level x) k); [contradiction|].
        destruct (Z.ltb_spec (level x) k); [lia|].
        f_equal. exact IH.
Qed.

Lemma levels_push_restrict_drop (m : Z) (x : LeveledPerson) (levels : Levels) :
  m < level x -> restrict m (levels_push levels x) = restrict m levels.
Proof.
  intros Hx. induction levels as [|[k b] rest IH]; simpl.
  - destruct (Z.leb_spec (level x) m); [lia | reflexivity].
  - destruct (Z.eqb_spec (level x) k) as [E|E].
    + simpl. destruct (Z.leb_spec k m); [lia | reflexivity].
    + destruct (Z.ltb_spec (level x) k) as [Hl|Hl]; simpl.
      * destruct (Z.leb_spec (level x) m); [lia | reflexivity].
      * destruct (Z.leb_spec k m); [f_equal|]; exact IH.
Qed.

Lemma fold_levels_push_restrict (m : Z) (l : list LeveledPerson) :
  forall levels, levels_wf levels ->
  fold_left levels_push (filter (fun e => level e <=? m) l) (restrict m levels)
  = restrict m (fold_left levels_push l levels).
Proof.
  induction l as [|x l IH]; intros levels Hw; simpl; [reflexivity|].
  destruct (Z.leb_spec (level x) m) as [Hx|Hx]; simpl.
  - rewrite (levels_push_restrict_keep m x levels Hw Hx).
    apply IH, levels_wf_push, Hw.
  - rewrite <- (levels_push_restrict_drop m x levels Hx).
    apply IH, levels_wf_push, Hw.
Qed.

Lemma componentsWithLevels_restrict (m m' : Z) :
  m <= m' ->
  forall comps levels' R R',
  levels_wf levels' ->
  componentsWithLevels comps m (restrict m levels') = Some R ->
  componentsWithLevels comps m' levels' = Some R' ->
  R = restrict m R' /\ levels_wf R'.
Proof.
  intros Hmm. induction comps as [|c comps IH]; intros levels' R R' Hw H H';
    simpl in H, H'.
  - injection H as <-. injection H' as <-. split; [reflexivity | exact Hw].
  - destruct (getFriendsLevels c m []) as [r|] eqn:Er; [|discriminate].
    destruct (getFriendsLevels c m' []) as [r'|] eqn:Er'; [|discriminate].
    simpl in H, H'.
    rewrite (getFriendsLevels_bound_mono c m m' [] [] r r' Hmm Er Er') in H.
    rewrite (fold_levels_push_restrict m r' levels' Hw) in H.
    eapply IH; [|exact H|exact H']. apply levels_wf_fold, Hw.
Qed.

Lemma levels_wf_homogeneous (levels : Levels) :
  levels_wf levels -> homogeneous levels.
Proof.
  unfold homogeneous. induction levels as [|[k b] rest IH]; simpl; intros Hw;
    [constructor|].
  destruct Hw as (Hb & _ & Hw). constructor; [exact Hb | apply IH; exact Hw].
Qed.

Lemma levels_split (m : Z) (levels : Levels) :
  levels_wf levels ->
  exists rest,
    levels = restrict m levels ++ rest /\ Forall (fun kv => m < fst kv) rest.
Proof.
  induction levels as [|[k b] rest IH]; simpl; intros Hw.
  - exists []. split; [reflexivity | constructor].
  - destruct Hw as (Hb & Hk & Hw).
    destruct (Z.leb_spec k m) as [Hkm|Hkm].
    + destruct (IH Hw) as (rest' & E & Hf). exists rest'.
      split; [simpl; f_equal; exact E | exact Hf].
    + fold (restrict m rest).
      rewrite (restrict_above m k rest Hk ltac:(lia)).
      exists ((k, b) :: rest). split; [reflexivity|].
      constructor; [exact Hkm|].
      unfold keys_above in Hk. eapply Forall_impl; [|exact Hk].
      intros kv Hkv. simpl in Hkv. lia.
Qed.

Lemma ranked_levels_of_keys (localeCompare : string -> string -> Z)
  (P : Z -> Prop) (levels : Levels) :
  homogeneous levels -> Forall (fun kv => P (fst kv)) levels ->
  Forall (fun e => P (level e))
    (concat (map (sort localeCompare) (object_values levels))).
Proof.
  unfold homogeneous, object_values.
  induction levels as [|[k b] rest IH]; simpl; intros Hh HP; [constructor|].
  inversion Hh as [|? ? Hb Hrest]; subst. inversion HP as [|? ? Hk HPr]; subst.
  apply Forall_app. split; [|apply IH; assumption].
  eapply Permutation_Forall; [symmetry; apply sort_perm|].
  eapply Forall_impl; [|exact Hb]. intros e He. simpl in *. rewrite He. exact Hk.
Qed.

Lemma rankedLevels_prefix (localeCompare : string -> string -> Z)
  (people : list Person) (m m' : Z) :
  m <= m' ->
  exists r extra,
    rankedLevels localeCompare people m = Some r /\
    rankedLevels localeCompare people m' = Some (r ++ extra) /\
    Forall (fun e => level e <= m) r /\
    Forall (fun e => m < level e) extra.
Proof.
  intros Hmm. unfold rankedLevels.
  destruct (findConnectedComponents_total people) as [comps Hc]. rewrite Hc.
  simpl.
  destruct (componentsWithLevels_spec m comps [] I) as (R & _ & HR & _).
  destruct (componentsWithLevels_spec m' comps [] I) as (R' & _ & HR' & _).
  rewrite HR, HR'. simpl.
  destruct (componentsWithLevels_restrict m m' Hmm comps [] R R' I HR HR')
    as [-> Hw].
  destruct (levels_split m R' Hw) as (rest & E & Hrest).
  assert (Hh := levels_wf_homogeneous R' Hw).
  exists (concat (map (sort localeCompare) (object_values (restrict m R')))),
         (concat (map (sort localeCompare) (object_values rest))).
  split; [reflexivity|]. split; [|split].
  - rewrite <- concat_app, <- map_app. unfold object_values.
    rewrite <- map_app, <- E. reflexivity.
  - apply (ranked_levels_of_keys localeCompare (fun k => k <= m)).
    + unfold homogeneous, restrict in *.
      apply Forall_forall. intros kv Hkv. apply filter_In in Hkv.
      rewrite Forall_forall in Hh. apply Hh, Hkv.
    + apply Forall_forall. intros kv Hkv. apply filter_In in Hkv.
      apply Z.leb_le, Hkv.
  - apply (ranked_levels_of_keys localeCompare (fun k => m < k)); [|exact Hrest].
    unfold homogeneous in *. rewrite E in Hh.
    apply Forall_app in Hh. apply Hh.
Qed.

(** X7: Raising the depth bound only appends to the ranking: the sequence for the
    smaller bound is the beginning of the sequence for the larger one, and what
    follows it has levels above the smaller bound. *)
Theorem ranking_grows_at_the_end (localeCompare : string -> string -> Z)
  (people : list Person) (m m' : Z) :
  m <= m' ->
  exists r extra,
    rankedLevels localeCompare people m = Some r /\
    rankedLevels localeCompare people m' = Some (r ++ extra) /\
    Forall (fun e => level e <= m) r /\
    Forall (fun e => m < level e) extra /\
    getComponentsOfFriendsWithLevel localeCompare people m
    = Some (map friend r) /\
    getComponentsOfFriendsWithLevel localeCompare people m'
    = Some (map friend r ++ map friend extra).
Proof.
  intros Hmm.
  destruct (rankedLevels_prefix localeCompare people m m' Hmm)
    as (r & extra & H1 & H2 & H3 & H4).
  exists r, extra. repeat split; try assumption;
    unfold getComponentsOfFriendsWithLevel.
  - rewrite H1. reflexivity.
  - rewrite H2. simpl. rewrite map_app. reflexivity.
Qed.

Lemma ranking_grows_at_the_end_witness :
  exists r extra,
    rankedLevels codeUnitCompare two_groups 1 = Some r /\
    rankedLevels codeUnitCompare two_groups 2 = Some (r ++ extra) /\
    Forall (fun e => level e <= 1) r /\
    Forall (fun e => 1 < level e) extra /\
    getComponentsOfFriendsWithLevel codeUnitCompare two_groups 1
    = Some (map friend r) /\
    getComponentsOfFriendsWithLevel codeUnitCompare two_groups 2
    = Some (map friend r ++ map friend extra).
Proof.
  apply (ranking_grows_at_the_end codeUnitCompare two_groups 1 2). lia.
Defined.

(** X8: A bounded iterator yields the beginning of what an iterator with a larger
    bound yields, for every filter. *)
Theorem LimitedIterator_yields_a_prefix (localeCompare : string -> string -> Z)
  (people : list Person) (f : Filter) (m m' : Z) :
  m <= m' ->
  exists s t,
    new (LimitedIterator localeCompare people (VFilter f) m)
    = Normal {| IteratorObject.nextIndex := Some 0;
                IteratorObject.friends := Some s |} /\
    new (LimitedIterator localeCompare people (VFilter f) m')
    = Normal {| IteratorObject.nextIndex := Some 0;
                IteratorObject.friends := Some (s ++ t) |}.
Proof.
  intros Hmm.
  destruct (rankedLevels_prefix localeCompare people m m' Hmm)
    as (r & extra & H1 & H2 & _ & _).
  exists (filterArray f (map friend r)), (filterArray f (map friend extra)).
  unfold new, LimitedIterator, getComponentsOfFriendsWithLevel. simpl.
  rewrite H1, H2. simpl. split; [reflexivity|].
  rewrite map_app. unfold filterArray.
  destruct (filterFunction f); [rewrite filter_app|]; reflexivity.
Qed.

Lemma LimitedIterator_yields_a_prefix_witness :
  exists s t,
    new (LimitedIterator codeUnitCompare chain (VFilter MaleFilter) 1)
    = Normal {| IteratorObject.nextIndex := Some 0;
                IteratorObject.friends := Some s |} /\
    new (LimitedIterator codeUnitCompare chain (VFilter MaleFilter) 3)
    = Normal {| IteratorObject.nextIndex := Some 0;
                IteratorObject.friends := Some (s ++ t) |}.
Proof.
  apply (LimitedIterator_yields_a_prefix codeUnitCompare chain MaleFilter 1 3).
  lia.
Defined.

(** ** What the ranking holds *)

Lemma components_in_graph (graph : list Person) (comps : list (list Person)) :
  findConnectedComponents graph = Some comps ->
  forall c, In c comps -> incl c graph.
Proof.
  intros Hc.
  pose (P := fun (_ : list string) (cs : list (list Person)) =>
               forall c, In c cs -> incl c graph).
  destruct (findConnectedComponents_loop_invariant graph P) with
      (fuel := length graph) (visited := @nil string)
      (components := @nil (list Person)) (r := comps) as [v [HP _]].
  - intros visited components node search HP Hin _ Hs c Hcin.
    apply in_app_or in Hcin. destruct Hcin as [Hcin | [<- | []]]; [auto|].
    destruct (breadthSearch_loop_extends graph _ _ _ _ Hs)
      as (extra & -> & Hincl & _).
    intros x [<- | Hx]; [exact Hin | apply Hincl; exact Hx].
  - intros c [].
  - exact Hc.
  - exact HP.
Qed.

Lemma allFriends_listed (nodes : list LeveledPerson) (people : list Person)
  (q : Person) :
  In q (allFriends nodes people) ->
  exists e, In e nodes /\ lists_to people (friend e) q.
Proof.
  unfold allFriends. intros H. apply filter_In in H. destruct H as [H _].
  apply truthy_In in H. rewrite setOfAllFriends_unfold in H.
  apply add_all_friends_inv in H. destruct H as [[] | H]. exact H.
Qed.

Lemma setLevelToFriend_from_seeds (people : list Person) (maxLevel : Z) :
  forall fuel nodes c r,
  Forall (from_a_seed people) nodes ->
  setLevelToFriend fuel nodes people c maxLevel = Some r ->
  Forall (from_a_seed people) r.
Proof.
  induction fuel as [|fuel IH]; intros nodes c r Hf H; simpl in H;
    destruct (c >? maxLevel); simpl in H;
    try (injection H as <-; exact Hf);
    destruct (length people =? length nodes)%nat;
    try (injection H as <-; exact Hf); try discriminate.
  eapply IH; [|exact H]. apply Forall_app. split; [exact Hf|].
  apply Forall_forall. intros e He. apply in_map_iff in He.
  destruct He as [q [<- Hq]]. apply allFriends_listed in Hq.
  destruct Hq as [e0 [He0 Hl]]. rewrite Forall_forall in Hf.
  destruct (Hf e0 He0) as (s & n & Hs & Hh).
  exists s, (S n). split; [exact Hs|]. simpl. eapply hops_S; eassumption.
Qed.

Lemma getFriendsLevels_from_seeds (people : list Person) (maxLevel : Z)
  (n0 r : list LeveledPerson) :
  getFriendsLevels people maxLevel n0 = Some r ->
  Forall (from_a_seed people) r.
Proof.
  unfold getFriendsLevels. destruct (_ || _).
  - intros H. injection H as <-. constructor.
  - apply setLevelToFriend_from_seeds. apply Forall_forall. intros e He.
    apply in_map_iff in He. destruct He as [q [<- Hq]].
    apply filter_In in Hq. exists q, O. split; [exact Hq | constructor].
Qed.

Lemma hops_reach (graph c : list Person) (n : nat) (s p : Person) :
  incl c graph -> hops c n s p -> reach graph s p.
Proof.
  intros Hincl Hh. induction Hh as [|n s q r Hh IH [f [Hf Hr]]]; [constructor|].
  apply reach_step with q; [exact IH|]. apply resolve_some in Hr.
  destruct Hr as [Hr <-]. split; [apply Hincl; exact Hr | exact Hf].
Qed.

Lemma Forall2_right_member {A B} (R : A -> B -> Prop) (l1 : list A)
  (l2 : list B) (b : B) :
  Forall2 R l1 l2 -> In b l2 -> exists a, In a l1 /\ R a b.
Proof.
  induction 1 as [|x y l1 l2 Hxy _ IH]; intros Hb; [destruct Hb|].
  destruct Hb as [<- | Hb].
  - exists x. split; [left; reflexivity | exact Hxy].
  - destruct (IH Hb) as [a [Ha HR]]. exists a. split; [right; exact Ha | exact HR].
Qed.

Lemma rankedLevels_entries (localeCompare : string -> string -> Z)
  (people : list Person) (maxLevel : Z) :
  exists ranked comps leveled,
    rankedLevels localeCompare people maxLevel = Some ranked /\
    findConnectedComponents people = Some comps /\
    Forall2 (fun c r => getFriendsLevels c maxLevel [] = Some r) comps leveled /\
    Permutation ranked (concat leveled).
Proof.
  unfold rankedLevels.
  destruct (findConnectedComponents_total people) as [comps Hc]. rewrite Hc.
  destruct (componentsWithLevels_spec maxLevel comps [] I)
    as (levels & leveled & Hl & _ & Hf & Hp). simpl. rewrite Hl. simpl.
  eexists. exists comps, leveled. split; [reflexivity|]. split; [reflexivity|].
  split; [exact Hf|]. rewrite sorted_entries_perm. exact Hp.
Qed.

(** X9: Whatever the collection, the bound and the locale, the ranking holds only
    persons of the collection, each of them reached from a person flagged
    [best] along the friends lists. *)
Theorem ranking_from_best_friends (localeCompare : string -> string -> Z)
  (people : list Person) (maxLevel : Z) :
  exists out,
    getComponentsOfFriendsWithLevel localeCompare people maxLevel = Some out /\
    forall p, In p out ->
      In p people /\
      exists s, In s people /\ best s = true /\ reach people s p.
Proof.
  destruct (rankedLevels_entries localeCompare people maxLevel)
    as (ranked & comps & leveled & Hr & Hc & Hf & Hp).
  exists (map friend ranked). unfold getComponentsOfFriendsWithLevel.
  rewrite Hr. split; [reflexivity|].
  intros p Hin. apply in_map_iff in Hin. destruct Hin as [e [<- He]].
  apply (Permutation_in _ Hp) in He. apply in_concat in He.
  destruct He as [r [Hrin He]].
  destruct (Forall2_right_member _ _ _ _ Hf Hrin) as [c [Hcin Hg]].
  assert (Hincl := components_in_graph people comps Hc c Hcin).
  assert (Hs := getFriendsLevels_from_seeds c maxLevel [] r Hg).
  rewrite Forall_forall in Hs. destruct (Hs e He) as (s & n & [Hsc Hb] & Hh).
  split.
  - apply Hincl. apply (hops_in c n s); assumption.
  - exists s. split; [apply Hincl; exact Hsc|]. split; [exact Hb|].
    eapply hops_reach; eassumption.
Qed.

Lemma componentsWithLevels_nothing (maxLevel : Z) (comps : list (list Person)) :
  (forall c, In c comps -> getFriendsLevels c maxLevel [] = Some []) ->
  forall levels, componentsWithLevels comps maxLevel levels = Some levels.
Proof.
  induction comps as [|c comps IH]; intros H levels; simpl; [reflexivity|].
  rewrite (H c (or_introl eq_refl)). simpl. apply IH.
  intros c' Hc'. apply H. right; exact Hc'.
Qed.

(** X10: With a bound of 0 or less, or without a person flagged [best] in the
    collection, the ranking is empty and the iterator is exhausted from the
    start, whatever the filter. *)
Theorem nothing_to_iterate (localeCompare : string -> string -> Z)
  (people : list Person) (maxLevel : Z) (f : Filter) :
  maxLevel <= 0 \/ (forall p, In p people -> best p = false) ->
  getComponentsOfFriendsWithLevel localeCompare people maxLevel = Some [] /\
  exists it,
    new (LimitedIterator localeCompare people (VFilter f) maxLevel) = Normal it /\
    fst (done it) = Normal true /\
    fst (next it) = Normal RNull.
Proof.
  intros H.
  assert (Hout : getComponentsOfFriendsWithLevel localeCompare people maxLevel
                 = Some []).
  { unfold getComponentsOfFriendsWithLevel, rankedLevels.
    destruct (findConnectedComponents_total people) as [comps Hc]. rewrite Hc.
    simpl. rewrite componentsWithLevels_nothing; [reflexivity|].
    intros c Hcin. unfold getFriendsLevels. destruct H as [H|H].
    - destruct (Z.leb_spec maxLevel 0); [reflexivity | lia].
    - rewrite (filter_none (fun x => best x) c).
      + simpl. rewrite orb_true_r. reflexivity.
      + intros x Hx. apply H.
        apply (components_in_graph people comps Hc c Hcin). exact Hx. }
  split; [exact Hout|].
  exists {| IteratorObject.nextIndex := Some 0;
            IteratorObject.friends := Some [] |}.
  unfold new, LimitedIterator. simpl. rewrite Hout. simpl.
  unfold filterArray. destruct (filterFunction f); repeat split.
Qed.

Lemma nothing_to_iterate_witness :
  getComponentsOfFriendsWithLevel codeUnitCompare chain (-1) = Some [] /\
  exists it,
    new (LimitedIterator codeUnitCompare chain (VFilter FemaleFilter) (-1))
    = Normal it /\
    fst (done it) = Normal true /\
    fst (next it) = Normal RNull.
Proof.
  apply (nothing_to_iterate codeUnitCompare chain (-1) FemaleFilter).
  left. lia.
Defined.

(** ** The ranking where friendship is mutual *)

Lemma components_classes (graph : list Person) (comps : list (list Person)) :
  heap_consistent graph -> unique_names graph -> symmetric_friends graph ->
  findConnectedComponents graph = Some comps ->
  NoDup (concat comps) /\
  (forall p, In p graph -> In p (concat comps)) /\
  (forall c, In c comps ->
     exists root, In root graph /\ breadthSearch root graph = Some c).
Proof.
  intros Hwf Huniq Hsym Hc.
  pose (P := fun (visited : list string) (cs : list (list Person)) =>
               visited = map name (concat cs) /\
               NoDup (concat cs) /\
               incl (concat cs) graph /\
               (forall x y, In x (concat cs) -> reach graph x y ->
                            In y (concat cs)) /\
               (forall c, In c cs ->
                  exists root, In root graph /\
                               breadthSearch root graph = Some c)).
  destruct (findConnectedComponents_loop_invariant graph P) with
      (fuel := length graph) (visited := @nil string)
      (components := @nil (list Person)) (r := comps)
    as [v [(Hv & Hnd & Hincl & _ & Hroots) Hall]].
  - intros visited components node search (Hv & Hnd & Hincl & Hcl & Hroots)
      Hin Hnv Hs.
    assert (Hr := breadthSearch_reach graph node Hwf Hin search Hs).
    assert (Hcat : concat (components ++ [search]) = concat components ++ search).
    { rewrite concat_app. simpl. rewrite app_nil_r. reflexivity. }
    unfold P. rewrite Hcat. split; [|split; [|split; [|split]]].
    + rewrite map_app, Hv. reflexivity.
    + apply NoDup_app; [exact Hnd| |].
      * eapply breadthSearch_NoDup; [apply unique_names_NoDup; exact Huniq|exact Hs].
      * intros a Ha Has. apply Hnv. rewrite Hv. apply in_map.
        apply (Hcl a node Ha). apply reach_sym; [exact Hsym|exact Hin|].
        apply Hr; exact Has.
    + apply incl_app; [exact Hincl|].
      eapply breadthSearch_in_graph; eassumption.
    + intros x y Hx Hxy. apply in_or_app. apply in_app_or in Hx.
      destruct Hx as [Hx|Hx]; [left; eapply Hcl; eassumption|right].
      apply Hr. apply reach_trans with x; [apply Hr; exact Hx|exact Hxy].
    + intros c Hcin. apply in_app_or in Hcin.
      destruct Hcin as [Hcin | [<- | []]]; [apply Hroots; exact Hcin|].
      exists node. split; assumption.
  - unfold P. simpl. split; [reflexivity|]. split; [constructor|].
    split; [intros x []|]. split; [intros x y []|intros c []].
  - exact Hc.
  - split; [exact Hnd|]. split; [|exact Hroots].
    intros p Hp. specialize (Hall p Hp). rewrite Hv in Hall.
    apply in_map_iff in Hall. destruct Hall as [q [E Hq]].
    rewrite <- (unique_names_inj graph q p Huniq (Hincl q Hq) Hp E). exact Hq.
Qed.

Lemma resolve_unique (graph c : list Person) (r : Person) :
  unique_names graph -> incl c graph -> In r c ->
  resolve c (name r) = Some r.
Proof.
  intros Huniq Hincl Hr. unfold resolve.
  destruct (find (fun x => String.eqb (name x) (name r)) c) as [x|] eqn:Ef.
  - apply find_some in Ef. destruct Ef as [Hx E]. apply String.eqb_eq in E.
    f_equal. apply (unique_names_inj graph); auto.
  - apply (find_none _ _ Ef) in Hr. rewrite String.eqb_refl in Hr. discriminate.
Qed.

Lemma reach_hops (graph c : list Person) (s p : Person) :
  unique_names graph -> incl c graph ->
  (forall x y, In x c -> edge graph x y -> In y c) ->
  In s c -> reach graph s p ->
  exists n, hops c n s p.
Proof.
  intros Huniq Hincl Hcl Hs Hr.
  induction Hr as [|q r Hr [n IH] He]; [exists O; constructor|].
  exists (S n). apply hops_S with q; [exact IH|].
  assert (Hq : In q c) by (apply (hops_in c n s); assumption).
  assert (Hrc : In r c) by (eapply Hcl; eassumption).
  exists (name r). split; [apply He|].
  apply (resolve_unique graph); assumption.
Qed.

Lemma getFriendsLevels_distinct (people : list Person) (maxLevel : Z)
  (n0 res : list LeveledPerson) :
  distinct_objects people ->
  getFriendsLevels people maxLevel n0 = Some res ->
  NoDup (map friend res) /\ incl (map friend res) people.
Proof.
  intros Hd H. unfold getFriendsLevels in H. destruct (_ || _).
  - injection H as <-. split; [constructor | intros x []].
  - destruct (setLevelToFriend_sound people maxLevel Hd _ _ 2 res
                ltac:(lia) (level_invariant_init people Hd) H)
      as [c' [[Hnd Hincl _ _] _]].
    split; assumption.
Qed.

Lemma getFriendsLevels_reaches (people : list Person) (maxLevel : Z)
  (n0 res : list LeveledPerson) (s p : Person) (n : nat) :
  distinct_objects people ->
  Z.of_nat (length people) <= maxLevel ->
  seed people s -> hops people n s p ->
  getFriendsLevels people maxLevel n0 = Some res ->
  In p (map friend res).
Proof.
  intros Hd Hmax Hs Hh Hres. unfold getFriendsLevels in Hres.
  assert (Hpos : (1 <= length people)%nat).
  { destruct Hs as [Hs _]. destruct people; [destruct Hs | simpl; lia]. }
  destruct (Z.leb_spec maxLevel 0) as [Hm|Hm]; [lia|].
  assert (Hseed : In s (filter (fun x => best x) people))
    by (apply filter_In; exact Hs).
  assert (Hlen : (1 <= length (map (fun x => LevelConstructor x 1)
                                 (filter (fun x => best x) people)))%nat).
  { rewrite length_map.
    destruct (filter (fun x => best x) people); [destruct Hseed | simpl; lia]. }
  destruct (Nat.ltb_spec
              (length (map (fun x => LevelConstructor x 1)
                         (filter (fun x => best x) people))) 1) as [Hlt|_];
    [lia|].
  cbn [orb] in Hres.
  destruct (setLevelToFriend_sound_closed people maxLevel Hd _ _ 2 res
              ltac:(lia) (level_invariant_init people Hd)
              ltac:(left; lia) Hres)
    as (c' & Hc' & [Hnd Hincl Hlev Hcomp] & HK & Hend).
  assert (Hall : (length people <= length (map friend res))%nat ->
                 In p (map friend res)).
  { intros Hle.
    apply (@NoDup_length_incl _ (map friend res) people Hnd Hle Hincl).
    apply (hops_in people n s p); [apply Hs | exact Hh]. }
  destruct Hend as [Hlt | Heq]; [|apply Hall; rewrite length_map; lia].
  destruct HK as [Hlen' | Hcl]; [apply Hall; rewrite length_map; lia|].
  apply (closed_contains_hops people res s p n Hcl); [|exact Hh].
  apply (Hcomp s O s Hs); [constructor | simpl; lia].
Qed.

Lemma NoDup_app_disjoint {A} (l1 l2 : list A) (x : A) :
  NoDup (l1 ++ l2) -> In x l1 -> In x l2 -> False.
Proof.
  induction l1 as [|a l1 IH]; intros Hnd H1 H2; [destruct H1|].
  simpl in Hnd. inversion Hnd as [|? ? Ha Hnd']; subst.
  destruct H1 as [-> | H1]; [|apply IH; assumption].
  apply Ha, in_or_app. right; exact H2.
Qed.

Lemma leveled_friends_distinct (comps : list (list Person))
  (leveled : list (list LeveledPerson)) :
  Forall2 (fun c r => NoDup (map friend r) /\ incl (map friend r) c)
    comps leveled ->
  NoDup (concat comps) ->
  NoDup (map friend (concat leveled)) /\
  incl (map friend (concat leveled)) (concat comps).
Proof.
  induction 1 as [|c r cs rs [Hnd Hincl] _ IH]; intros Hcat; simpl.
  - split; [constructor | intros x []].
  - simpl in Hcat. destruct (IH (NoDup_app_remove_l _ _ Hcat)) as [IH1 IH2].
    rewrite map_app. split.
    + apply NoDup_app; [exact Hnd | exact IH1 |].
      intros x Hx Hx'. apply (NoDup_app_disjoint _ _ x Hcat);
        [apply Hincl; exact Hx | apply IH2; exact Hx'].
    + apply incl_app; intros x Hx; apply in_or_app;
        [left; apply Hincl; exact Hx | right; apply IH2; exact Hx].
Qed.

Lemma components_distinct (graph : list Person) (comps : list (list Person)) :
  distinct_objects graph ->
  (forall c, In c comps ->
     exists root, In root graph /\ breadthSearch root graph = Some c) ->
  forall c, In c comps ->
    distinct_objects c /\ incl c graph /\ (length c <= length graph)%nat.
Proof.
  intros Hd Hroots c Hc. destruct (Hroots c Hc) as [root [Hroot Hs]].
  assert (Hdc : distinct_objects c).
  { eapply breadthSearch_loop_distinct; [exact Hd| |exact Hs].
    unfold distinct_objects. simpl. constructor; [intros []|constructor]. }
  assert (Hincl : incl c graph).
  { destruct (breadthSearch_loop_extends graph _ _ _ _ Hs)
      as (extra & -> & Hincl & _).
    intros x [<- | Hx]; [exact Hroot | apply Hincl; exact Hx]. }
  split; [exact Hdc|]. split; [exact Hincl|].
  apply NoDup_incl_length; [|exact Hincl].
  apply NoDup_map_inv with (f := ref). exact Hdc.
Qed.

(** X11: On a collection of distinct persons with unique names in which friendship
    is mutual, nobody is ranked twice, whatever the bound. *)
Theorem ranking_without_repetition (localeCompare : string -> string -> Z)
  (people : list Person) (maxLevel : Z) :
  distinct_objects people -> unique_names people -> symmetric_friends people ->
  exists out,
    getComponentsOfFriendsWithLevel localeCompare people maxLevel = Some out /\
    NoDup out.
Proof.
  intros Hd Huniq Hsym.
  destruct (rankedLevels_entries localeCompare people maxLevel)
    as (ranked & comps & leveled & Hr & Hc & Hf & Hp).
  exists (map friend ranked). unfold getComponentsOfFriendsWithLevel.
  rewrite Hr. split; [reflexivity|].
  destruct (components_classes people comps
              (NoDup_map_ref_consistent people Hd) Huniq Hsym Hc)
    as (Hnd & _ & Hroots).
  apply (Permutation_NoDup (l := map friend (concat leveled)));
    [apply Permutation_map; symmetry; exact Hp|].
  apply (leveled_friends_distinct comps leveled); [|exact Hnd].
  clear - Hf Hd Hroots.
  assert (Hdc := components_distinct people comps Hd Hroots). clear Hroots.
  induction Hf as [|c r cs rs Hg Hf IH]; [constructor|].
  constructor.
  - destruct (Hdc c (or_introl eq_refl)) as [Hc _].
    eapply getFriendsLevels_distinct; eassumption.
  - apply IH. intros c' Hc'. apply Hdc. right; exact Hc'.
Qed.

Lemma ranking_without_repetition_witness :
  exists out,
    getComponentsOfFriendsWithLevel codeUnitCompare chain 2 = Some out /\
    NoDup out.
Proof.
  apply (ranking_without_repetition codeUnitCompare chain 2).
  - unfold distinct_objects. simpl.
    repeat constructor; simpl; intuition discriminate.
  - unfold unique_names. simpl.
    repeat constructor; simpl; intuition discriminate.
  - intros p q Hp Hq. simpl in Hp, Hq.
    destruct Hp as [<- | [<- | [<- | []]]]; destruct Hq as [<- | [<- | [<- | []]]];
      simpl; intuition discriminate.
Defined.

(** X12: On a collection of distinct persons with unique names in which friendship
    is mutual, the unbounded iterator leaves nobody out: its sequence, before
    the filter, holds exactly the persons that a person flagged [best] reaches
    along the friends lists. *)
Theorem Iterator_yields_all_connected_to_best
  (localeCompare : string -> string -> Z) (people : list Person) (f : Filter) :
  distinct_objects people -> unique_names people -> symmetric_friends people ->
  exists out,
    getComponentsOfFriendsWithLevel localeCompare people
      (Z.of_nat (length people)) = Some out /\
    new (Iterator localeCompare people (VFilter f))
    = Normal {| IteratorObject.nextIndex := Some 0;
                IteratorObject.friends := Some (filterArray f out) |} /\
    forall p, In p out <->
      exists s, In s people /\ best s = true /\ reach people s p.
Proof.
  intros Hd Huniq Hsym.
  assert (Hwf := NoDup_map_ref_consistent people Hd).
  destruct (rankedLevels_entries localeCompare people (Z.of_nat (length people)))
    as (ranked & comps & leveled & Hr & Hc & Hf & Hp).
  assert (Hout : getComponentsOfFriendsWithLevel localeCompare people
                   (Z.of_nat (length people)) = Some (map friend ranked)).
  { unfold getComponentsOfFriendsWithLevel. rewrite Hr. reflexivity. }
  exists (map friend ranked). split; [exact Hout|]. split.
  { unfold new, Iterator. simpl. rewrite Hout. reflexivity. }
  destruct (components_classes people comps Hwf Huniq Hsym Hc)
    as (Hnd & Hcover & Hroots).
  assert (Hdc := components_distinct people comps Hd Hroots).
  intros p. split.
  - intros Hin. apply in_map_iff in Hin. destruct Hin as [e [<- He]].
    apply (Permutation_in _ Hp) in He. apply in_concat in He.
    destruct He as [r [Hrin He]].
    destruct (Forall2_right_member _ _ _ _ Hf Hrin) as [c [Hcin Hg]].
    destruct (Hdc c Hcin) as (_ & Hincl & _).
    assert (Hs := getFriendsLevels_from_seeds c _ [] r Hg).
    rewrite Forall_forall in Hs. destruct (Hs e He) as (s & n & [Hsc Hb] & Hh).
    exists s. split; [apply Hincl; exact Hsc|]. split; [exact Hb|].
    eapply hops_reach; eassumption.
  - intros (s & Hs & Hb & Hreach).
    specialize (Hcover s Hs). apply in_concat in Hcover.
    destruct Hcover as [c [Hcin Hsc]].
    destruct (Hroots c Hcin) as [root [Hroot Hbfs]].
    assert (Hclass := breadthSearch_reach people root Hwf Hroot c Hbfs).
    destruct (Hdc c Hcin) as (Hcd & Hincl & Hlen).
    assert (Hcl : forall x y, In x c -> edge people x y -> In y c).
    { intros x y Hx He. apply Hclass. apply reach_step with x; [|exact He].
      apply Hclass; exact Hx. }
    destruct (reach_hops people c s p Huniq Hincl Hcl Hsc Hreach) as [n Hh].
    destruct (Forall2_left_member _ _ _ _ Hf Hcin) as [r [Hrin Hg]].
    assert (Hpin : In p (map friend r)).
    { apply (getFriendsLevels_reaches c (Z.of_nat (length people)) [] r s p n);
        [exact Hcd | lia | split; assumption | exact Hh | exact Hg]. }
    apply in_map_iff in Hpin. destruct Hpin as [e [<- He]].
    apply in_map. apply (Permutation_in _ (Permutation_sym Hp)).
    apply in_concat. exists r. split; assumption.
Qed.

Lemma Iterator_yields_all_connected_to_best_witness :
  exists out,
    getComponentsOfFriendsWithLevel codeUnitCompare chain
      (Z.of_nat (length chain)) = Some out /\
    new (Iterator codeUnitCompare chain (VFilter MaleFilter))
    = Normal {| IteratorObject.nextIndex := Some 0;
                IteratorObject.friends := Some (filterArray MaleFilter out) |} /\
    forall p, In p out <->
      exists s, In s chain /\ best s = true /\ reach chain s p.
Proof.
  apply (Iterator_yields_all_connected_to_best codeUnitCompare chain MaleFilter).
  - unfold distinct_objects. simpl.
    repeat constructor; simpl; intuition discriminate.
  - unfold unique_names. simpl.
    repeat constructor; simpl; intuition discriminate.
  - intros p q Hp Hq. simpl in Hp, Hq.
    destruct Hp as [<- | [<- | [<- | []]]]; destruct Hq as [<- | [<- | [<- | []]]];
      simpl; intuition discriminate.
Defined.

(** ** Walking an iterator *)

Lemma run_next_at_end (arr : list Person) (k : nat) :
  run (repeat CallNext k)
    {| IteratorObject.nextIndex := Some (Z.of_nat (length arr));
       IteratorObject.friends := Some arr |}
  = (repeat yields_null k,
     {| IteratorObject.nextIndex := Some (Z.of_nat (length arr));
        IteratorObject.friends := Some arr |}).
Proof.
  induction k as [|k IH]; [reflexivity|].
  simpl. unfold next at 1. simpl.
  destruct (Z.ltb_spec (Z.of_nat (length arr)) (Z.of_nat (length arr))); [lia|].
  rewrite IH. reflexivity.
Qed.

Lemma array_get_middle (pre suf : list Person) (a : Person) :
  array_get (pre ++ a :: suf) (Z.of_nat (length pre)) = RPerson a.
Proof.
  unfold array_get. destruct (Z.ltb_spec (Z.of_nat (length pre)) 0); [lia|].
  rewrite Nat2Z.id, nth_error_app2, Nat.sub_diag; [reflexivity | lia].
Qed.

Lemma run_next_from (suf : list Person) (k : nat) :
  forall pre,
  run (repeat CallNext (length suf + k))
    {| IteratorObject.nextIndex := Some (Z.of_nat (length pre));
       IteratorObject.friends := Some (pre ++ suf) |}
  = (map yields suf ++ repeat yields_null k,
     {| IteratorObject.nextIndex := Some (Z.of_nat (length (pre ++ suf)));
        IteratorObject.friends := Some (pre ++ suf) |}).
Proof.
  induction suf as [|a suf IH]; intros pre.
  - simpl. rewrite app_nil_r. apply run_next_at_end.
  - simpl. unfold next at 1. simpl.
    destruct (Z.ltb_spec (Z.of_nat (length pre))
                (Z.of_nat (length (pre ++ a :: suf)))) as [_|Hge];
      [|rewrite length_app in Hge; simpl in Hge; lia].
    rewrite array_get_middle.
    replace (Z.of_nat (length pre) + 1) with (Z.of_nat (length (pre ++ [a])))
      by (rewrite length_app; simpl; lia).
    replace (pre ++ a :: suf) with ((pre ++ [a]) ++ suf)
      by (rewrite <- app_assoc; reflexivity).
    rewrite IH. reflexivity.
Qed.

(** X13: Calling [next()] again and again on a new iterator gives the persons of
    the filtered ranking, one by one in its order, and then [null] for ever. *)
Theorem next_walks_the_filtered_ranking (localeCompare : string -> string -> Z)
  (people : list Person) (f : Filter) (maxLevel : Z) (k : nat) :
  exists out it,
    getComponentsOfFriendsWithLevel localeCompare people maxLevel = Some out /\
    new (LimitedIterator localeCompare people (VFilter f) maxLevel) = Normal it /\
    fst (run (repeat CallNext (length (filterArray f out) + k)) it)
    = map yields (filterArray f out) ++ repeat yields_null k.
Proof.
  destruct (construction_succeeds localeCompare people f maxLevel)
    as (out & Hout & Hnew).
  exists out. eexists. split; [exact Hout|]. split; [exact Hnew|].
  exact (f_equal fst (run_next_from (filterArray f out) k [])).
Qed.

Lemma done_keeps_the_object (this : IteratorObject.t) : snd (done this) = this.
Proof.
  unfold done. destruct (IteratorObject.friends this);
    [destruct (IteratorObject.nextIndex this)|]; reflexivity.
Qed.

(** X14: Calls of [done()] change nothing: without them the calls of [next()] give
    the same results and leave the object in the same state, on any object. *)
Theorem done_calls_are_transparent (calls : list Call) (this : IteratorObject.t) :
  next_results (fst (run calls this))
  = next_results (fst (run (filter is_next calls) this)) /\
  snd (run calls this) = snd (run (filter is_next calls) this).
Proof.
  revert this. induction calls as [|c calls IH]; intros this;
    [split; reflexivity|].
  destruct c; simpl.
  - destruct (next this) as [r this'].
    destruct (IH this') as [IH1 IH2].
    destruct (run calls this') as [rs t1].
    destruct (run (filter is_next calls) this') as [rs' t2].
    simpl in *. split; [f_equal; exact IH1 | exact IH2].
  - assert (Hd := done_keeps_the_object this).
    destruct (done this) as [r this']. simpl in Hd. subst this'.
    destruct (IH this) as [IH1 IH2].
    destruct (run calls this) as [rs t1]. simpl in *.
    split; assumption.
Qed.

(** ** Filters together *)

Lemma filter_twice {A} (f g : A -> bool) (l : list A) :
  filter f (filter g l) = filter (fun x => g x && f x) l.
Proof.
  induction l as [|a l IH]; simpl; [reflexivity|].
  destruct (g a); simpl; [destruct (f a); simpl; rewrite IH|]; auto.
Qed.

(** X15: Applying a filter twice changes nothing more, the order in which two
    filters are applied does not matter, and a filter never lengthens a
    sequence: the result holds the persons that both filters accept. *)
Theorem filters_compose (f g : Filter) (ranked : list Person) :
  filterArray f (filterArray f ranked) = filterArray f ranked /\
  filterArray f (filterArray g ranked) = filterArray g (filterArray f ranked) /\
  (length (filterArray f ranked) <= length ranked)%nat /\
  (forall p, In p (filterArray f (filterArray g ranked)) <->
             In p ranked /\ accepts f p = true /\ accepts g p = true).
Proof.
  unfold filterArray, accepts.
  destruct (filterFunction f) as [ff|]; destruct (filterFunction g) as [gf|];
    repeat split; try reflexivity; try (apply filter_length_le);
    try (rewrite !filter_twice; apply filter_ext; intros a;
         destruct (ff a); destruct (gf a); reflexivity);
    try (rewrite !filter_twice; apply filter_ext; intros a;
         destruct (ff a); reflexivity);
    try (rewrite filter_In in *; tauto);
    try (rewrite !filter_In in *; tauto);
    try tauto.
Qed.

(** X16: No person passes both presets, and a sequence of persons whose gender is
    one of the two values is split by them. *)
Theorem presets_split_the_sequence (ranked : list Person) :
  (forall p, In p ranked -> gender p = MALE \/ gender p = FEMALE) ->
  filterArray MaleFilter (filterArray FemaleFilter ranked) = [] /\
  Permutation (filterArray MaleFilter ranked ++ filterArray FemaleFilter ranked)
    ranked.
Proof.
  intros H. unfold filterArray. simpl. split.
  - apply filter_none. intros p Hp. apply filter_In in Hp.
    destruct Hp as [_ Hp]. apply String.eqb_eq in Hp. rewrite Hp. reflexivity.
  - induction ranked as [|a l IH]; simpl; [constructor|].
    assert (IH' := IH (fun p Hp => H p (or_intror Hp))).
    destruct (H a (or_introl eq_refl)) as [E|E]; rewrite E; simpl.
    + constructor. exact IH'.
    + symmetry. apply Permutation_cons_app. symmetry. exact IH'.
Qed.

Lemma presets_split_the_sequence_witness :
  filterArray MaleFilter (filterArray FemaleFilter chain) = [] /\
  Permutation (filterArray MaleFilter chain ++ filterArray FemaleFilter chain)
    chain.
Proof.
  apply (presets_split_the_sequence chain).
  intros p Hp. simpl in Hp.
  destruct Hp as [<- | [<- | [<- | []]]]; simpl; auto.
Defined.

(** ** Coverage and the first circle *)

(** X17: Where names are unique, every person of the collection is in a component,
    whether friendship is mutual or not. *)
Theorem components_cover_unique_names (graph : list Person) :
  unique_names graph ->
  exists comps,
    findConnectedComponents graph = Some comps /\
    (forall p, In p graph -> exists c, In c comps /\ In p c) /\
    (forall c p, In c comps -> In p c -> In p graph).
Proof.
  intros Huniq. destruct (findConnectedComponents_total graph) as [comps Hc].
  exists comps. split; [exact Hc|].
  assert (Hincl := components_in_graph graph comps Hc).
  pose (P := fun (visited : list string) (cs : list (list Person)) =>
               visited = map name (concat cs)).
  destruct (findConnectedComponents_loop_invariant graph P) with
      (fuel := length graph) (visited := @nil string)
      (components := @nil (list Person)) (r := comps) as [v [Hv Hall]].
  - intros visited components node search Hv _ _ _. unfold P.
    rewrite concat_app, map_app, Hv. simpl. rewrite app_nil_r. reflexivity.
  - reflexivity.
  - exact Hc.
  - split; [|intros c p Hcin Hp; apply (Hincl c Hcin); exact Hp].
    intros p Hp. specialize (Hall p Hp). rewrite Hv in Hall.
    apply in_map_iff in Hall. destruct Hall as [q [E Hq]].
    apply in_concat in Hq. destruct Hq as [c [Hcin Hqc]].
    exists c. split; [exact Hcin|].
    rewrite <- (unique_names_inj graph q p Huniq (Hincl c Hcin q Hqc) Hp E).
    exact Hqc.
Qed.

Lemma components_cover_unique_names_witness :
  exists comps,
    findConnectedComponents one_way = Some comps /\
    (forall p, In p one_way -> exists c, In c comps /\ In p c) /\
    (forall c p, In c comps -> In p c -> In p one_way).
Proof.
  apply (components_cover_unique_names one_way).
  unfold unique_names. simpl.
  repeat constructor; simpl; intuition discriminate.
Defined.

Lemma getFriendsLevels_first_circle (people : list Person)
  (n0 : list LeveledPerson) :
  getFriendsLevels people 1 n0
  = Some (map (fun b => LevelConstructor b 1) (filter (fun x => best x) people)).
Proof.
  unfold getFriendsLevels. simpl.
  destruct (filter (fun x => best x) people) as [|b bs]; [reflexivity|].
  simpl. reflexivity.
Qed.

Lemma first_circle_leveled (comps : list (list Person))
  (leveled : list (list LeveledPerson)) :
  Forall2 (fun c r => getFriendsLevels c 1 [] = Some r) comps leveled ->
  map friend (concat leveled) = filter (fun x => best x) (concat comps).
Proof.
  induction 1 as [|c r cs rs Hg _ IH]; [reflexivity|].
  simpl. rewrite map_app, filter_app, IH. f_equal.
  rewrite getFriendsLevels_first_circle in Hg. injection Hg as <-.
  apply map_friend_leveled.
Qed.

Lemma filter_permutation {A} (f : A -> bool) (l l' : list A) :
  Permutation l l' -> Permutation (filter f l) (filter f l').
Proof.
  induction 1 as [|x l l' _ IH|x y l|l l' l'' _ IH1 _ IH2]; simpl.
  - constructor.
  - destruct (f x); [constructor|]; exact IH.
  - destruct (f x); destruct (f y); try reflexivity. apply perm_swap.
  - etransitivity; eassumption.
Qed.

(** X18: On a collection with unique names in which friendship is mutual, a bound
    of 1 ranks the persons flagged [best] and nobody else, each once. *)
Theorem first_circle_is_the_best_friends (localeCompare : string -> string -> Z)
  (people : list Person) :
  heap_consistent people -> unique_names people -> symmetric_friends people ->
  exists out,
    getComponentsOfFriendsWithLevel localeCompare people 1 = Some out /\
    Permutation out (filter (fun x => best x) people).
Proof.
  intros Hwf Huniq Hsym.
  destruct (rankedLevels_entries localeCompare people 1)
    as (ranked & comps & leveled & Hr & Hc & Hf & Hp).
  exists (map friend ranked). unfold getComponentsOfFriendsWithLevel.
  rewrite Hr. split; [reflexivity|].
  destruct (components_classes people comps Hwf Huniq Hsym Hc)
    as (Hnd & Hcover & _).
  rewrite (Permutation_map friend Hp), (first_circle_leveled comps leveled Hf).
  apply filter_permutation. apply NoDup_Permutation;
    [exact Hnd | apply unique_names_NoDup; exact Huniq |].
  intros x. split; [|apply Hcover].
  intros Hx. apply in_concat in Hx. destruct Hx as [c [Hcin Hxc]].
  apply (components_in_graph people comps Hc c Hcin). exact Hxc.
Qed.

Lemma first_circle_is_the_best_friends_witness :
  exists out,
    getComponentsOfFriendsWithLevel codeUnitCompare chain 1 = Some out /\
    Permutation out (filter (fun x => best x) chain).
Proof.
  apply (first_circle_is_the_best_friends codeUnitCompare chain).
  - intros p q Hp Hq. simpl in Hp, Hq.
    destruct Hp as [<- | [<- | [<- | []]]]; destruct Hq as [<- | [<- | [<- | []]]];
      simpl; intros E; first [reflexivity | discriminate E].
  - unfold unique_names. simpl.
    repeat constructor; simpl; intuition discriminate.
  - intros p q Hp Hq. simpl in Hp, Hq.
    destruct Hp as [<- | [<- | [<- | []]]]; destruct Hq as [<- | [<- | [<- | []]]];
      simpl; intuition discriminate.
Defined.
